(** * plasmasaver: the staleness detector behind the anti image retention overlay

    A shallow embedding of [plasmasaver.c].  The program keeps one
    [struct data_t]; three glib timers and the GTK draw signal call its
    handlers one at a time.  Every handler is modelled as a function on that
    record.  What the handlers obtain from the platform (the contents of the
    root window, the pointer position, the allocated size of the widget) is
    an argument of the handler.

    Conventions.
    - C integers are [Z]; the wrap-around of [unsigned char], [guint] and
      [uint32_t] is written out where the code can reach it.
    - An image surface is its geometry, its stride and its data.  The data of
      the A1 mask and of the A8 age map are bytes; the data of an RGB24
      capture is the array of 32-bit words the code reads through its
      [uint32_t *] cast.  A1 rows are little-endian (pixel [x] is bit [x % 8]
      of byte [x / 8]), as the code assumes.
    - cairo's rasteriser is not part of the program: the coverage it gives to
      each pixel when it fills the pointer's arc is a parameter of the
      model. *)

From Stdlib Require Import ZArith List Bool Lia.
From stdpp Require Import base list.

Local Open Scope Z_scope.

(** ** Configuration constants *)

Definition PERIOD_MS : Z := 4000.
Definition BAR_PIXEL_INCREMENT : Z := 10.
Definition SCREEN_CAPTURE_PERIOD_MS : Z := 2000.
Definition MAX_AGE : Z := 150.
Definition POINTER_POLL_PERIOD_MS : Z := 10.
Definition POINTER_CLEANING_RADIUS : Z := 100.
Definition MIN_CHANGE_THRESHOLD : Z := 2.

(** The tunables the handlers depend on.  [default_config] holds the values
    compiled into the program. *)
Record config := mk_config {
  cfg_max_age : Z;          (* MAX_AGE, an unsigned char *)
  cfg_threshold : Z;        (* MIN_CHANGE_THRESHOLD, an int *)
  cfg_increment : Z;        (* BAR_PIXEL_INCREMENT, a guint *)
  cfg_radius : Z            (* POINTER_CLEANING_RADIUS *)
}.

Definition default_config : config :=
  {| cfg_max_age := MAX_AGE;
     cfg_threshold := MIN_CHANGE_THRESHOLD;
     cfg_increment := BAR_PIXEL_INCREMENT;
     cfg_radius := POINTER_CLEANING_RADIUS |}.

(** ** Machine arithmetic *)

Definition u8 (z : Z) : Z := z mod 256.
Definition u32 (z : Z) : Z := z mod 2 ^ 32.

(** ** Loops *)

(** [for (i = lo; i < hi; i++) s = body i s] *)
Fixpoint for_loop {S : Type} (n : nat) (i : Z) (body : Z -> S -> S) (s : S) : S :=
  match n with
  | O => s
  | Datatypes.S n' => for_loop n' (i + 1) body (body i s)
  end.

Definition for_range {S : Type} (lo hi : Z) (body : Z -> S -> S) (s : S) : S :=
  for_loop (Z.to_nat (hi - lo)) lo body s.

(** ** Buffers *)

(** [buf[i]] and [buf[i] = v].  The program never indexes outside a buffer of
    a well-formed session; there the model reads 0 and writes nothing. *)
Definition load (buf : list Z) (i : Z) : Z := default 0 (buf !! Z.to_nat i).
Definition store (buf : list Z) (i : Z) (v : Z) : list Z := <[Z.to_nat i := v]> buf.

(** ** Classification of one pixel (lines 202-210) *)

(** One round of the loop over the three colour components. *)
Definition channel_body (thr : Z) (_ : Z) (st : Z * Z * bool) : Z * Z * bool :=
  let '(current_pix, last_pix, different) := st in
  let diff := Z.land current_pix 255 - Z.land last_pix 255 in
  (Z.shiftr current_pix 8, Z.shiftr last_pix 8,
   if Z.abs diff >=? thr then true else different).

Definition pixel_different (thr : Z) (current_pix last_pix : Z) : bool :=
  snd (for_range 0 3 (channel_body thr) (current_pix, last_pix, false)).

(** Colour component [i] of a pixel, stated arithmetically. *)
Definition channel (i : Z) (pix : Z) : Z := (pix / 256 ^ i) mod 256.

Definition channel_diff (i : Z) (p q : Z) : Z := Z.abs (channel i p - channel i q).

(** ** Image surfaces *)

Inductive cairo_format := FORMAT_A1 | FORMAT_A8 | FORMAT_RGB24.

Definition bits_per_pixel (f : cairo_format) : Z :=
  match f with FORMAT_A1 => 1 | FORMAT_A8 => 8 | FORMAT_RGB24 => 32 end.

(** Bytes held by one cell of the data array: the capture buffers are kept as
    32-bit words. *)
Definition cell_bytes (f : cairo_format) : Z :=
  match f with FORMAT_RGB24 => 4 | _ => 1 end.

(** cairo's row stride: the bytes of a row, rounded up to a multiple of 4. *)
Definition cairo_stride (f : cairo_format) (w : Z) : Z :=
  ((bits_per_pixel f * w + 7) / 8 + 3) / 4 * 4.

Record image := mk_image {
  img_format : cairo_format;
  img_width : Z;
  img_height : Z;
  img_stride : Z;          (* in bytes *)
  img_data : list Z
}.

(** [cairo_image_surface_create]: a surface whose contents are all zero. *)
Definition cairo_image_surface_create (f : cairo_format) (w h : Z) : image :=
  {| img_format := f;
     img_width := w;
     img_height := h;
     img_stride := cairo_stride f w;
     img_data := repeat 0 (Z.to_nat (cairo_stride f w / cell_bytes f * h)) |}.

(** [gdk_window_create_similar_surface] with CAIRO_CONTENT_ALPHA: the
    render-side surface, modelled as 8-bit alpha without row padding, all
    transparent. *)
Definition create_similar_alpha_surface (w h : Z) : image :=
  {| img_format := FORMAT_A8;
     img_width := w;
     img_height := h;
     img_stride := w;
     img_data := repeat 0 (Z.to_nat (w * h)) |}.

(** The surface a handler holds before the first draw ([data = {0}]). *)
Definition null_surface : image :=
  {| img_format := FORMAT_A8;
     img_width := 0; img_height := 0; img_stride := 0; img_data := [] |}.

Definition with_data (s : image) (d : list Z) : image :=
  {| img_format := img_format s;
     img_width := img_width s; img_height := img_height s;
     img_stride := img_stride s; img_data := d |}.

(** Index of the cell that holds pixel [(x, y)]. *)
Definition cell_index (f : cairo_format) (stride x y : Z) : Z :=
  match f with
  | FORMAT_A1 => y * stride + x / 8
  | FORMAT_A8 => y * stride + x
  | FORMAT_RGB24 => y * stride / 4 + x
  end.

(** Pixel views of the three formats. *)
Definition a8_get (s : image) (x y : Z) : Z :=
  load (img_data s) (cell_index FORMAT_A8 (img_stride s) x y).
Definition a1_get (s : image) (x y : Z) : bool :=
  Z.testbit (load (img_data s) (cell_index FORMAT_A1 (img_stride s) x y)) (x mod 8).
Definition rgb_get (s : image) (x y : Z) : Z :=
  load (img_data s) (cell_index FORMAT_RGB24 (img_stride s) x y).

(** Run [body x y] over every pixel of a surface, row by row. *)
Definition for_pixels (s : image) (body : Z -> Z -> list Z -> list Z) : image :=
  with_data s
    (for_range 0 (img_height s)
       (fun y => for_range 0 (img_width s) (fun x => body x y)) (img_data s)).

(** ** What cairo does for the program *)

(** The coverage (0 = none, 255 = full) the rasteriser gives to pixel [(x, y)]
    when it fills the arc of radius [r] around [(xc, yc)]. *)
Definition coverage_fn : Type := Z -> Z -> Z -> Z -> Z -> Z.

Definition clamp_alpha (a : Z) : Z := Z.max 0 (Z.min 255 a).

(** CLEAR leaves [dest * (1 - coverage)]. *)
Definition clear8 (alpha v : Z) : Z := v * (255 - clamp_alpha alpha) / 255.
(** A set 1-bit pixel is dropped once less than half of it is left. *)
Definition clear1 (alpha : Z) : bool := 128 <=? clamp_alpha alpha.
Definition clear_rgb (alpha pix : Z) : Z :=
  clear8 alpha (channel 0 pix) + 256 * clear8 alpha (channel 1 pix)
  + 65536 * clear8 alpha (channel 2 pix).

Definition clear_cell (f : cairo_format) (stride alpha x y : Z) (d : list Z) : list Z :=
  let i := cell_index f stride x y in
  match f with
  | FORMAT_A1 => if clear1 alpha then store d i (Z.clearbit (load d i) (x mod 8)) else d
  | FORMAT_A8 => store d i (clear8 alpha (load d i))
  | FORMAT_RGB24 => store d i (clear_rgb alpha (load d i))
  end.

(** [cairo_set_operator(cr, CAIRO_OPERATOR_CLEAR); cairo_arc(cr, xc, yc, r, 0, 2 * M_PI);
    cairo_close_path(cr); cairo_fill(cr)] on a surface.  Drawing is clipped to
    the surface. *)
Definition cairo_fill_arc_clear (arc_alpha : coverage_fn) (xc yc r : Z) (s : image) : image :=
  for_pixels s (fun x y =>
    clear_cell (img_format s) (img_stride s) (arc_alpha xc yc r x y) x y).

(** [gdk_cairo_set_source_window; cairo_paint] with SOURCE on a capture: every
    pixel of the surface takes the colour of the root window there. *)
Definition paint_window (screen : Z -> Z -> Z) (s : image) : image :=
  for_pixels s (fun x y d =>
    store d (cell_index FORMAT_RGB24 (img_stride s) x y) (u32 (screen x y))).

(** [cairo_set_source_surface(cr, mask_image, 0, 0); cairo_paint] with SOURCE
    on the render-side mask: opaque where the bit is set, transparent
    elsewhere. *)
Definition paint_mask (src : image) (dst : image) : image :=
  for_pixels dst (fun x y d =>
    store d (cell_index FORMAT_A8 (img_stride dst) x y)
      (if (x <? img_width src) && (y <? img_height src) && a1_get src x y
       then 255 else 0)).

(** Geometry of the pointer's disc on the pixel grid: pixel [(x, y)] is the
    unit square with corners [(x, y)] and [(x + 1, y + 1)]. *)
Definition far_sq (c lo : Z) : Z := Z.max ((lo - c) ^ 2) ((lo + 1 - c) ^ 2).
Definition near_sq (c lo : Z) : Z :=
  if (lo <=? c) && (c <=? lo + 1) then 0
  else Z.min ((lo - c) ^ 2) ((lo + 1 - c) ^ 2).

(** The whole pixel lies in the closed disc. *)
Definition inside_circle (xc yc r x y : Z) : bool :=
  far_sq xc x + far_sq yc y <=? r ^ 2.
(** No point of the pixel lies in the closed disc. *)
Definition outside_circle (xc yc r x y : Z) : bool :=
  r ^ 2 <? near_sq xc x + near_sq yc y.

(** A rasteriser that is exact away from the rim of the disc. *)
Definition exact_on_disc (arc_alpha : coverage_fn) : Prop :=
  forall xc yc r x y,
    (inside_circle xc yc r x y = true -> clamp_alpha (arc_alpha xc yc r x y) = 255) /\
    (outside_circle xc yc r x y = true -> clamp_alpha (arc_alpha xc yc r x y) = 0).

(** One such rasteriser: pixels on the rim are half covered. *)
Definition ideal_alpha : coverage_fn :=
  fun xc yc r x y =>
    if inside_circle xc yc r x y then 255
    else if outside_circle xc yc r x y then 0 else 128.

(** ** The program state *)

Record data_t := mk_data {
  initialized : bool;
  draw_timeout_id : Z;     (* the draw timer, known by its interval in ms *)
  mask : image;            (* render-side copy of the mask *)
  mask_image : image;      (* A1 *)
  pixel_ages : image;      (* A8 *)
  captures : image * image;
  width : Z;
  height : Z;
  capture_index : Z;
  bar_x : Z;
  pointer_x : Z;
  pointer_y : Z
}.

(** [struct data_t data = {0};] in [main]. *)
Definition initial_data : data_t :=
  {| initialized := false; draw_timeout_id := 0;
     mask := null_surface; mask_image := null_surface;
     pixel_ages := null_surface; captures := (null_surface, null_surface);
     width := 0; height := 0; capture_index := 0; bar_x := 0;
     pointer_x := 0; pointer_y := 0 |}.

(** [data->captures[i]] *)
Definition get_capture (d : data_t) (i : Z) : image :=
  if i =? 0 then fst (captures d) else snd (captures d).

Definition set_capture (cs : image * image) (i : Z) (s : image) : image * image :=
  if i =? 0 then (s, snd cs) else (fst cs, s).

(** The Age Map, the Stale Mask and the previous capture, pixel by pixel. *)
Definition age (d : data_t) (x y : Z) : Z := a8_get (pixel_ages d) x y.
Definition stale (d : data_t) (x y : Z) : bool := a1_get (mask_image d) x y.
Definition previous_pixel (d : data_t) (x y : Z) : Z :=
  rgb_get (get_capture d (1 - capture_index d)) x y.

(** ** The handlers *)

(** State of the diff loop: the mask and age data being rewritten, the
    [mask_changed] flag, and how far the four row pointers have advanced. *)
Record diff_state := mk_diff {
  ds_mask : list Z;
  ds_ages : list Z;
  ds_changed : bool;
  ds_mask_off : Z;
  ds_ages_off : Z;
  ds_current_off : Z;
  ds_last_off : Z
}.

Section Handlers.

Variable cfg : config.
Variable arc_alpha : coverage_fn.

(** Lines 193-220: the body of the loop over [x]. *)
Definition diff_pixel (current last : list Z) (x : Z) (st : diff_state) : diff_state :=
  let byte := Z.quot x 8 in
  let bit := Z.shiftl 1 (Z.rem x 8) in
  if negb (Z.land (load (ds_mask st) (ds_mask_off st + byte)) bit =? 0) then
    st                                   (* already masked out: continue *)
  else
    let age := load (ds_ages st) (ds_ages_off st + x) in
    let current_pix := load current (Z.quot (ds_current_off st) 4 + x) in
    let last_pix := load last (Z.quot (ds_last_off st) 4 + x) in
    let different := pixel_different (cfg_threshold cfg) current_pix last_pix in
    if negb different then
      let age := u8 (age + 1) in
      if age >=? cfg_max_age cfg then
        mk_diff
          (store (ds_mask st) (ds_mask_off st + byte)
             (u8 (Z.lor (load (ds_mask st) (ds_mask_off st + byte)) bit)))
          (store (ds_ages st) (ds_ages_off st + x) 0)
          true
          (ds_mask_off st) (ds_ages_off st) (ds_current_off st) (ds_last_off st)
      else
        mk_diff (ds_mask st) (store (ds_ages st) (ds_ages_off st + x) age)
          (ds_changed st)
          (ds_mask_off st) (ds_ages_off st) (ds_current_off st) (ds_last_off st)
    else
      mk_diff (ds_mask st) (store (ds_ages st) (ds_ages_off st + x) 0)
        (ds_changed st)
        (ds_mask_off st) (ds_ages_off st) (ds_current_off st) (ds_last_off st).

(** Lines 191-226: one row, then the four pointers move on by their strides. *)
Definition diff_row (w mask_stride pixel_ages_stride current_stride last_stride : Z)
    (current last : list Z) (_ : Z) (st : diff_state) : diff_state :=
  let st := for_range 0 w (diff_pixel current last) st in
  mk_diff (ds_mask st) (ds_ages st) (ds_changed st)
    (ds_mask_off st + mask_stride) (ds_ages_off st + pixel_ages_stride)
    (ds_current_off st + current_stride) (ds_last_off st + last_stride).

Definition on_screen_capture_timer (screen : Z -> Z -> Z) (data : data_t)
    : data_t * bool :=
  if negb (initialized data) then (data, true)
  else
    let other_capture_index := 1 - capture_index data in
    let current_surface := get_capture data (capture_index data) in
    let last_surface := get_capture data other_capture_index in
    (* Capture the screen. *)
    let current_surface := paint_window screen current_surface in
    (* Compute mask by diff'ing to previous capture. *)
    let st :=
      for_range 0 (height data)
        (diff_row (width data)
           (img_stride (mask_image data)) (img_stride (pixel_ages data))
           (img_stride current_surface) (img_stride last_surface)
           (img_data current_surface) (img_data last_surface))
        (mk_diff (img_data (mask_image data)) (img_data (pixel_ages data))
           false 0 0 0 0) in
    let mask_image' := with_data (mask_image data) (ds_mask st) in
    ({| initialized := initialized data;
        draw_timeout_id := draw_timeout_id data;
        mask := if ds_changed st then paint_mask mask_image' (mask data)
                else mask data;
        mask_image := mask_image';
        pixel_ages := with_data (pixel_ages data) (ds_ages st);
        captures := set_capture (captures data) (capture_index data) current_surface;
        width := width data;
        height := height data;
        capture_index := other_capture_index;
        bar_x := bar_x data;
        pointer_x := pointer_x data;
        pointer_y := pointer_y data |}, true).

(** Lines 242-250.  The arc is centred on the pointer position held in
    [data]. *)
Definition clear_arc (data : data_t) (surface : image) : image :=
  cairo_fill_arc_clear arc_alpha (pointer_x data) (pointer_y data)
    (cfg_radius cfg) surface.

(** Lines 268-273: what a poll does once it has seen the pointer move. *)
Definition pointer_clear (x y : Z) (data : data_t) : data_t :=
  let data :=
    {| initialized := initialized data;
       draw_timeout_id := draw_timeout_id data;
       mask := mask data; mask_image := mask_image data;
       pixel_ages := pixel_ages data; captures := captures data;
       width := width data; height := height data;
       capture_index := capture_index data; bar_x := bar_x data;
       pointer_x := x; pointer_y := y |} in
  {| initialized := initialized data;
     draw_timeout_id := draw_timeout_id data;
     mask := clear_arc data (mask data);
     mask_image := clear_arc data (mask_image data);
     pixel_ages := clear_arc data (pixel_ages data);
     captures := captures data;
     width := width data; height := height data;
     capture_index := capture_index data; bar_x := bar_x data;
     pointer_x := pointer_x data; pointer_y := pointer_y data |}.

(** [x], [y]: the pointer position [gdk_window_get_device_position] reports. *)
Definition on_mouse_poll_timer (x y : Z) (data : data_t) : data_t * bool :=
  if negb (initialized data) then (data, true)
  else if (pointer_x data =? x) && (pointer_y data =? y) then (data, true)
  else (pointer_clear x y data, true).

(** [assert(data->width)] aborts the program: [None]. *)
Definition on_draw_timer (data : data_t) : option (data_t * bool) :=
  if width data =? 0 then None
  else
    Some ({| initialized := initialized data;
             draw_timeout_id := draw_timeout_id data;
             mask := mask data; mask_image := mask_image data;
             pixel_ages := pixel_ages data; captures := captures data;
             width := width data; height := height data;
             capture_index := capture_index data;
             bar_x := u32 (bar_x data + cfg_increment cfg) mod u32 (width data);
             pointer_x := pointer_x data; pointer_y := pointer_y data |}, true).

(** [w], [h]: the allocated size of the widget.  Only the part of the handler
    that touches [data] is modelled; painting on [cr] leaves [data] alone. *)
Definition on_draw (w h : Z) (data : data_t) : option data_t :=
  if (w =? 0) || (h =? 0) then None
  else if negb (initialized data) || negb (width data =? w) || negb (height data =? h)
  then
    Some {| initialized := true;
            draw_timeout_id := u32 (PERIOD_MS * cfg_increment cfg) / u32 w;
            mask := create_similar_alpha_surface w h;
            mask_image := cairo_image_surface_create FORMAT_A1 w h;
            pixel_ages := cairo_image_surface_create FORMAT_A8 w h;
            captures := (cairo_image_surface_create FORMAT_RGB24 w h,
                         cairo_image_surface_create FORMAT_RGB24 w h);
            width := w;
            height := h;
            capture_index := capture_index data;
            bar_x := if initialized data
                     then u32 (bar_x data * u32 w) / u32 (width data)
                     else bar_x data;
            pointer_x := pointer_x data;
            pointer_y := pointer_y data |}
  else Some data.

(** What the event loop can deliver. *)
Inductive event :=
| Draw (w h : Z)
| DrawTimer
| ScreenCapture (screen : Z -> Z -> Z)
| MousePoll (x y : Z).

Definition step (e : event) (data : data_t) : option data_t :=
  match e with
  | Draw w h => on_draw w h data
  | DrawTimer => fst <$> on_draw_timer data
  | ScreenCapture screen => Some (fst (on_screen_capture_timer screen data))
  | MousePoll x y => Some (fst (on_mouse_poll_timer x y data))
  end.

Fixpoint run (es : list event) (data : data_t) : option data_t :=
  match es with
  | [] => Some data
  | e :: es => match step e data with Some data => run es data | None => None end
  end.

End Handlers.

(** ** Well-formed sessions and the properties stated about them *)

(** A surface of format [f] and size [w] x [h] whose rows fit in its stride
    and whose data has the size cairo allocates. *)
Definition wf_image (f : cairo_format) (w h : Z) (s : image) : Prop :=
  img_format s = f /\ img_width s = w /\ img_height s = h /\
  (bits_per_pixel f * w + 7) / 8 <= img_stride s /\
  img_stride s mod cell_bytes f = 0 /\
  Z.of_nat (length (img_data s)) = img_stride s / cell_bytes f * h.

(** The shape of [data] between two handlers once [on_draw] has run. *)
Definition wf_data (d : data_t) : Prop :=
  0 < width d /\ 0 < height d /\
  wf_image FORMAT_A8 (width d) (height d) (mask d) /\
  wf_image FORMAT_A1 (width d) (height d) (mask_image d) /\
  wf_image FORMAT_A8 (width d) (height d) (pixel_ages d) /\
  wf_image FORMAT_RGB24 (width d) (height d) (fst (captures d)) /\
  wf_image FORMAT_RGB24 (width d) (height d) (snd (captures d)) /\
  (capture_index d = 0 \/ capture_index d = 1).

Definition active (d : data_t) : Prop := initialized d = true /\ wf_data d.

Definition in_bounds (d : data_t) (x y : Z) : Prop :=
  0 <= x < width d /\ 0 <= y < height d.

(** Every masked pixel has age 0. *)
Definition stale_age_zero (d : data_t) : Prop :=
  forall x y, in_bounds d x y -> stale d x y = true -> age d x y = 0.

(** Every age is a count below the promotion threshold. *)
Definition ages_below (m : Z) (d : data_t) : Prop :=
  forall x y, in_bounds d x y -> 0 <= age d x y < m.

(** What one pass of the diff loop does to one pixel, as a function of the
    pixel's mask bit, its age and its two colours. *)
Definition pixel_step (cfg : config) (masked : bool) (a current_pix last_pix : Z)
    : bool * Z :=
  if masked then (true, a)
  else if pixel_different (cfg_threshold cfg) current_pix last_pix then (false, 0)
  else if u8 (a + 1) >=? cfg_max_age cfg then (true, 0)
  else (false, u8 (a + 1)).

(** Some colour component moved by at least [thr]. *)
Definition some_channel_changed (thr p q : Z) : Prop :=
  exists i, 0 <= i < 3 /\ thr <= channel_diff i p q.

(** Rounding to nearest of [p / q], for the comparison with the rescaled bar
    position. *)
Definition round_div (p q : Z) : Z := (2 * p + q) / (2 * q).

(** An event the platform can deliver in the state at hand: the widget has a
    non-empty allocation, and the draw timer exists only once [on_draw] has
    registered it. *)
Definition deliverable (e : event) (d : data_t) : Prop :=
  match e with
  | Draw w h => 0 < w /\ 0 < h
  | DrawTimer => initialized d = true
  | _ => True
  end.

(** A solid screen, and a screen that differs from another at one pixel. *)
Definition solid (colour : Z) : Z -> Z -> Z := fun _ _ => colour.
Definition screen_with (screen : Z -> Z -> Z) (qx qy colour : Z) : Z -> Z -> Z :=
  fun x y => if (x =? qx) && (y =? qy) then colour else screen x y.

(** What holds of [data] between any two handlers: the capture index is 0 or
    1, and once the session is set up it is well formed and every masked
    pixel has age 0. *)
Definition session_inv (d : data_t) : Prop :=
  (capture_index d = 0 \/ capture_index d = 1) /\
  (initialized d = true -> wf_data d /\ stale_age_zero d).

(** An event that cannot unset the mask bit of pixel [(px, py)] of a session
    of size [w] x [h]: anything but a resize and a pointer poll whose circle
    reaches the pixel. *)
Definition spares (cfg : config) (w h px py : Z) (e : event) : Prop :=
  match e with
  | Draw w' h' => w' = w /\ h' = h
  | MousePoll x y => outside_circle x y (cfg_radius cfg) px py = true
  | _ => True
  end.

(** ** Scenarios *)

(** The tunables of the end-to-end scenario. *)
Definition scenario_config : config :=
  {| cfg_max_age := 3; cfg_threshold := 2;
     cfg_increment := BAR_PIXEL_INCREMENT; cfg_radius := POINTER_CLEANING_RADIUS |}.

(** The session after the first draw at size [w] x [h]. *)
Definition start_session (cfg : config) (w h : Z) : data_t :=
  match on_draw cfg w h initial_data with Some d => d | None => initial_data end.

(** One capture tick for each screen of the list. *)
Definition feed (cfg : config) (screens : list (Z -> Z -> Z)) (d : data_t) : data_t :=
  fold_left (fun d screen => fst (on_screen_capture_timer cfg screen d)) screens d.

Definition white : Z := 16777215.

Definition demo_session : data_t := start_session default_config 4 2.

(** A 4 x 2 session all of whose pixels are masked. *)
Definition masked_session : data_t :=
  feed scenario_config [solid 0; solid 0; solid 0] (start_session scenario_config 4 2).

(** A 192 x 108 session after one animation tick. *)
Definition wide_session : data_t :=
  match run default_config ideal_alpha [Draw 192 108; DrawTimer] initial_data with
  | Some d => d
  | None => initial_data
  end.

(** While the loops are at [(x, y)], the pixels before it in raster order
    have been stepped by [f], read through the view [get]; the others are as
    they were in [s0]. *)
Definition swept {S V : Type} (w h : Z) (get : S -> Z -> Z -> V)
    (f : Z -> Z -> V -> V) (s0 : S) (y x : Z) (s : S) : Prop :=
  forall x' y', 0 <= x' < w -> 0 <= y' < h ->
    get s x' y' = (if (y' <? y) || ((y' =? y) && (x' <? x))
                   then f x' y' (get s0 x' y') else get s0 x' y').

(** The mask bit and the age of a pixel, read from the state of the diff
    loop. *)
Definition diff_view (mask_stride pixel_ages_stride : Z) (st : diff_state) (x y : Z)
    : bool * Z :=
  (Z.testbit (load (ds_mask st) (cell_index FORMAT_A1 mask_stride x y)) (x mod 8),
   load (ds_ages st) (cell_index FORMAT_A8 pixel_ages_stride x y)).

(** While the diff loop is in row [y], its four pointers stand at the start
    of that row and the two buffers keep their size. *)
Definition diff_inv (mask_stride pixel_ages_stride current_stride last_stride : Z)
    (nm na : nat) (y : Z) (st : diff_state) : Prop :=
  ds_mask_off st = y * mask_stride /\ ds_ages_off st = y * pixel_ages_stride /\
  ds_current_off st = y * current_stride /\ ds_last_off st = y * last_stride /\
  length (ds_mask st) = nm /\ length (ds_ages st) = na.

Definition diff_step (cfg : config) (current_stride last_stride : Z)
    (current last : list Z) (x y : Z) (v : bool * Z) : bool * Z :=
  pixel_step cfg (fst v) (snd v)
    (load current (cell_index FORMAT_RGB24 current_stride x y))
    (load last (cell_index FORMAT_RGB24 last_stride x y)).

(** ** The render-side mask, the bar and the flag of the diff loop *)

(** Alpha of a pixel on the render-side copy of the mask. *)
Definition render_alpha (d : data_t) (x y : Z) : Z := a8_get (mask d) x y.

(** The render-side copy shows the pixel opaque exactly when its bit is set. *)
Definition synced_at (d : data_t) (x y : Z) : Prop :=
  render_alpha d x y = if stale d x y then 255 else 0.

Definition mask_synced (d : data_t) : Prop :=
  forall x y, in_bounds d x y -> synced_at d x y.

Definition bar_in_range (d : data_t) : Prop := 0 <= bar_x d < width d.

(** The allocated width is an [int]. *)
Definition int_sized (e : event) : Prop :=
  match e with Draw w h => w < 2 ^ 31 | _ => True end.

(** The widget's allocation is not empty. *)
Definition positive_size (e : event) : Prop :=
  match e with Draw w h => 0 < w /\ 0 < h | _ => True end.

(** Bit of pixel [(x, y)] in the data of an A1 surface. *)
Definition mask_bit (stride : Z) (m : list Z) (x y : Z) : bool :=
  Z.testbit (load m (cell_index FORMAT_A1 stride x y)) (x mod 8).

(** [mask_changed] in the diff loop: while it is FALSE the mask is as it was
    in [m0]; once it is TRUE some pixel has been masked that was not; and no
    bit of [m0] is ever unset. *)
Definition diff_flag_inv (w h stride : Z) (m0 : list Z) (st : diff_state) : Prop :=
  (ds_changed st = false -> ds_mask st = m0) /\
  (ds_changed st = true ->
   exists x y, 0 <= x < w /\ 0 <= y < h /\
     mask_bit stride (ds_mask st) x y = true /\ mask_bit stride m0 x y = false) /\
  (forall x y, 0 <= x < w -> 0 <= y < h ->
     mask_bit stride m0 x y = true -> mask_bit stride (ds_mask st) x y = true).

(** A 4 x 2 session whose pixels are one tick away from promotion. *)
Definition aged_session : data_t :=
  feed scenario_config [solid 0; solid 0] (start_session scenario_config 4 2).

(** ** Loops and buffers *)

Lemma for_loop_ind {S : Type} (P : Z -> S -> Prop) (body : Z -> S -> S) (n : nat) :
  forall i s,
    P i s ->
    (forall j t, i <= j < i + Z.of_nat n -> P j t -> P (j + 1) (body j t)) ->
    P (i + Z.of_nat n) (for_loop n i body s).
Proof.
  induction n as [|n IH]; intros i s Hs Hstep; simpl for_loop.
  - replace (i + Z.of_nat 0) with i by lia. exact Hs.
  - replace (i + Z.of_nat (Datatypes.S n)) with ((i + 1) + Z.of_nat n) by lia.
    apply IH.
    + apply Hstep; [lia | exact Hs].
    + intros j t Hj. apply Hstep. lia.
Qed.

Lemma for_range_ind {S : Type} (P : Z -> S -> Prop) (body : Z -> S -> S) lo hi s :
  lo <= hi ->
  P lo s ->
  (forall j t, lo <= j < hi -> P j t -> P (j + 1) (body j t)) ->
  P hi (for_range lo hi body s).
Proof.
  intros Hle Hs Hstep. unfold for_range.
  replace hi with (lo + Z.of_nat (Z.to_nat (hi - lo))) at 1 by lia.
  apply for_loop_ind; [exact Hs |].
  intros j t Hj. apply Hstep. lia.
Qed.

Lemma for_range_ext {S : Type} (f g : Z -> S -> S) lo hi s :
  (forall i t, f i t = g i t) -> for_range lo hi f s = for_range lo hi g s.
Proof.
  intros Hfg. unfold for_range.
  generalize (Z.to_nat (hi - lo)) as n. intros n. revert lo s.
  induction n as [|n IH]; intros lo s; simpl; [reflexivity |].
  rewrite Hfg. apply IH.
Qed.

Lemma length_store d i v : length (store d i v) = length d.
Proof. unfold store. apply length_insert. Qed.

Lemma load_store_eq d i v :
  0 <= i < Z.of_nat (length d) -> load (store d i v) i = v.
Proof.
  intros Hi. unfold load, store.
  rewrite list_lookup_insert_eq by lia. reflexivity.
Qed.

Lemma load_store_ne d i j v :
  0 <= i -> 0 <= j -> i <> j -> load (store d i v) j = load d j.
Proof.
  intros Hi Hj Hne. unfold load, store.
  rewrite list_lookup_insert_ne by lia. reflexivity.
Qed.

Lemma load_repeat_zero n i : load (repeat 0 n) i = 0.
Proof.
  unfold load. destruct (repeat 0 n !! Z.to_nat i) as [v|] eqn:E; [| reflexivity].
  simpl. apply list_elem_of_lookup_2 in E. apply list_elem_of_In in E.
  apply repeat_spec in E. exact E.
Qed.

(** ** Classification of a pixel *)

Lemma land_shiftr_channel i p :
  0 <= i -> Z.land (Z.shiftr p (8 * i)) 255 = channel i p.
Proof.
  intros Hi. unfold channel.
  change 255 with (Z.ones 8). rewrite Z.land_ones by lia.
  rewrite Z.shiftr_div_pow2 by lia.
  replace (2 ^ (8 * i)) with (256 ^ i); [reflexivity |].
  change 256 with (2 ^ 8). rewrite <- Z.pow_mul_r by lia. reflexivity.
Qed.

Lemma channel_0 p : Z.land p 255 = channel 0 p.
Proof. rewrite <- (land_shiftr_channel 0) by lia. rewrite Z.shiftr_0_r. reflexivity. Qed.

Lemma channel_1 p : Z.land (Z.shiftr p 8) 255 = channel 1 p.
Proof. apply (land_shiftr_channel 1). lia. Qed.

Lemma channel_2 p : Z.land (Z.shiftr (Z.shiftr p 8) 8) 255 = channel 2 p.
Proof. rewrite Z.shiftr_shiftr by lia. apply (land_shiftr_channel 2). lia. Qed.

Lemma pixel_different_unfold thr p q :
  pixel_different thr p q =
  (thr <=? channel_diff 2 p q) || (thr <=? channel_diff 1 p q)
  || (thr <=? channel_diff 0 p q).
Proof.
  unfold pixel_different, for_range.
  change (Z.to_nat (3 - 0)) with 3%nat. cbn [for_loop channel_body snd].
  rewrite !channel_2, !channel_1, !channel_0.
  rewrite !Z.geb_leb. unfold channel_diff.
  destruct (thr <=? Z.abs (channel 2 p - channel 2 q)),
    (thr <=? Z.abs (channel 1 p - channel 1 q)),
    (thr <=? Z.abs (channel 0 p - channel 0 q)); reflexivity.
Qed.

Lemma pixel_different_true thr p q :
  pixel_different thr p q = true <-> some_channel_changed thr p q.
Proof.
  rewrite pixel_different_unfold. unfold some_channel_changed. split.
  - intros H. apply orb_true_iff in H. destruct H as [H | H].
    + apply orb_true_iff in H. destruct H as [H | H]; apply Z.leb_le in H.
      * exists 2. lia.
      * exists 1. lia.
    + apply Z.leb_le in H. exists 0. lia.
  - intros (i & Hi & Hd).
    assert (i = 0 \/ i = 1 \/ i = 2) as [-> | [-> | ->]] by lia;
      apply Z.leb_le in Hd; rewrite Hd; rewrite ?orb_true_r; reflexivity.
Qed.

Lemma pixel_different_false thr p q :
  pixel_different thr p q = false <->
  forall i, 0 <= i < 3 -> channel_diff i p q < thr.
Proof.
  split.
  - intros H i Hi. destruct (Z.lt_ge_cases (channel_diff i p q) thr) as [|Hge]; [assumption |].
    assert (pixel_different thr p q = true) as Ht
      by (apply pixel_different_true; exists i; split; [lia | assumption]).
    congruence.
  - intros H. destruct (pixel_different thr p q) eqn:E; [| reflexivity].
    apply pixel_different_true in E. destruct E as (i & Hi & Hd).
    specialize (H i Hi). lia.
Qed.

(** C3: a pixel is classified as changed exactly when one of its three colour
    components differs by at least the threshold between the two captures.  A
    component that differs by exactly the threshold is enough; when no
    component differs by more than the threshold minus one the pixel is
    unchanged. *)
Theorem C3_changed_iff_channel_reaches_threshold :
  forall thr p q,
    (pixel_different thr p q = true <-> some_channel_changed thr p q) /\
    (forall i, 0 <= i < 3 -> channel_diff i p q = thr -> pixel_different thr p q = true) /\
    ((forall i, 0 <= i < 3 -> channel_diff i p q <= thr - 1) ->
     pixel_different thr p q = false).
Proof.
  intros thr p q. split; [apply pixel_different_true |]. split.
  - intros i Hi Hd. apply pixel_different_true. exists i. split; [assumption | lia].
  - intros H. apply pixel_different_false. intros i Hi. specialize (H i Hi). lia.
Qed.

(** ** Loops over the pixels of a grid *)

Section PixelLoop.

Context {S V : Type}.
Variables (w h : Z).
Variable get : S -> Z -> Z -> V.
Variable f : Z -> Z -> V -> V.
Variable I : Z -> S -> Prop.
Variable body : Z -> Z -> S -> S.
Variable finish : Z -> S -> S.

Hypothesis body_ok : forall x y s,
  0 <= x < w -> 0 <= y < h -> I y s ->
  I y (body y x s) /\
  get (body y x s) x y = f x y (get s x y) /\
  (forall x' y', 0 <= x' < w -> 0 <= y' < h -> x' <> x \/ y' <> y ->
     get (body y x s) x' y' = get s x' y').

Hypothesis finish_ok : forall y s,
  0 <= y < h -> I y s ->
  I (y + 1) (finish y s) /\ (forall x' y', get (finish y s) x' y' = get s x' y').

Lemma row_sweep s0 y s :
  0 <= w -> 0 <= y < h -> I y s -> swept w h get f s0 y 0 s ->
  I y (for_range 0 w (body y) s) /\ swept w h get f s0 y w (for_range 0 w (body y) s).
Proof.
  intros Hw Hy HI Hsw.
  apply (for_range_ind (fun x t => I y t /\ swept w h get f s0 y x t)); [lia | tauto |].
  intros x t Hx [HIt Hswt].
  destruct (body_ok x y t ltac:(lia) Hy HIt) as (HI' & Hself & Hother).
  split; [exact HI' |].
  intros x' y' Hx' Hy'.
  destruct (Z.eq_dec x' x) as [-> | Hnx].
  - destruct (Z.eq_dec y' y) as [-> | Hny].
    + rewrite Hself, (Hswt x y) by lia.
      replace (y <? y) with false by lia. replace (y =? y) with true by lia.
      replace (x <? x) with false by lia. replace (x <? x + 1) with true by lia.
      reflexivity.
    + rewrite Hother by (try lia; right; exact Hny). rewrite (Hswt x y') by lia.
      replace (y' =? y) with false by lia. reflexivity.
  - rewrite Hother by (try lia; left; exact Hnx). rewrite (Hswt x' y') by lia.
    replace (x' <? x + 1) with (x' <? x) by lia. reflexivity.
Qed.

Lemma pixel_loop s0 :
  0 <= w -> 0 <= h -> I 0 s0 ->
  I h (for_range 0 h (fun y s => finish y (for_range 0 w (body y) s)) s0) /\
  (forall x y, 0 <= x < w -> 0 <= y < h ->
     get (for_range 0 h (fun y s => finish y (for_range 0 w (body y) s)) s0) x y
     = f x y (get s0 x y)).
Proof.
  intros Hw Hh HI.
  assert (I h (for_range 0 h (fun y s => finish y (for_range 0 w (body y) s)) s0) /\
          swept w h get f s0 h 0 (for_range 0 h (fun y s => finish y (for_range 0 w (body y) s)) s0))
    as [HIh Hsw].
  { apply (for_range_ind (fun y t => I y t /\ swept w h get f s0 y 0 t)); [lia | |].
    - split; [exact HI |]. intros x' y' Hx' Hy'.
      replace (y' <? 0) with false by lia. replace (x' <? 0) with false by lia.
      rewrite andb_false_r. reflexivity.
    - intros y t Hy [HIt Hswt].
      destruct (row_sweep s0 y t Hw Hy HIt Hswt) as [HIr Hswr].
      destruct (finish_ok y _ Hy HIr) as [HIf Hgf].
      split; [exact HIf |]. intros x' y' Hx' Hy'.
      rewrite Hgf, (Hswr x' y') by lia.
      replace (x' <? w) with true by lia. replace (x' <? 0) with false by lia.
      rewrite andb_true_r, andb_false_r, orb_false_r.
      replace (y' <? y + 1) with ((y' <? y) || (y' =? y)) by lia. reflexivity. }
  split; [exact HIh |]. intros x y Hx Hy.
  rewrite (Hsw x y) by lia. replace (y <? h) with true by lia. reflexivity.
Qed.

End PixelLoop.

(** ** Bits of a mask byte *)

Lemma testbit_shiftl_1 k j : 0 <= k -> Z.testbit (Z.shiftl 1 k) j = (k =? j).
Proof. intros Hk. rewrite Z.shiftl_1_l. apply Z.pow2_bits_eqb. exact Hk. Qed.

Lemma mask_test b k :
  0 <= k -> (Z.land b (Z.shiftl 1 k) =? 0) = negb (Z.testbit b k).
Proof.
  intros Hk. destruct (Z.testbit b k) eqn:E; simpl.
  - apply Z.eqb_neq. intros H0.
    assert (Z.testbit (Z.land b (Z.shiftl 1 k)) k = true) as Hb.
    { rewrite Z.land_spec, E, testbit_shiftl_1 by lia. simpl. apply Z.eqb_refl. }
    rewrite H0, Z.bits_0 in Hb. discriminate.
  - apply Z.eqb_eq. apply Z.bits_inj'. intros j Hj.
    rewrite Z.land_spec, Z.bits_0, testbit_shiftl_1 by lia.
    destruct (Z.eqb_spec k j) as [-> |]; [rewrite E; reflexivity | apply andb_false_r].
Qed.

Lemma testbit_set b k j :
  0 <= k -> 0 <= j < 8 ->
  Z.testbit (u8 (Z.lor b (Z.shiftl 1 k))) j = Z.testbit b j || (k =? j).
Proof.
  intros Hk Hj. unfold u8. change 256 with (2 ^ 8).
  rewrite Z.mod_pow2_bits_low by lia.
  rewrite Z.lor_spec, testbit_shiftl_1 by lia. reflexivity.
Qed.

Lemma testbit_clearbit b k j :
  0 <= k -> 0 <= j -> Z.testbit (Z.clearbit b k) j = Z.testbit b j && negb (k =? j).
Proof.
  intros Hk Hj. rewrite Z.clearbit_eqb by lia. reflexivity.
Qed.

(** ** Cells of the pixels of a surface *)

Lemma a8_index_bounds stride w h x y :
  w <= stride -> 0 <= x < w -> 0 <= y < h -> 0 <= y * stride + x < stride * h.
Proof.
  intros Hs Hx Hy.
  assert (0 <= y * stride) by (apply Z.mul_nonneg_nonneg; lia).
  assert (y * stride <= (h - 1) * stride) by (apply Z.mul_le_mono_nonneg_r; lia).
  lia.
Qed.

Lemma a8_index_inj stride w x y x' y' :
  w <= stride -> 0 <= x < w -> 0 <= x' < w -> 0 <= y -> 0 <= y' ->
  y * stride + x = y' * stride + x' -> x = x' /\ y = y'.
Proof.
  intros Hs Hx Hx' Hy Hy' E.
  assert (y = y') as ->; [| lia].
  destruct (Z.lt_trichotomy y y') as [Hlt | [Heq | Hgt]]; [| exact Heq |].
  - assert ((y + 1) * stride <= y' * stride) by (apply Z.mul_le_mono_nonneg_r; lia). lia.
  - assert ((y' + 1) * stride <= y * stride) by (apply Z.mul_le_mono_nonneg_r; lia). lia.
Qed.

Lemma rgb_index_eq stride x y :
  stride mod 4 = 0 -> y * stride / 4 + x = y * (stride / 4) + x.
Proof.
  intros H4. f_equal.
  rewrite (Z.div_mod stride 4) at 1 by lia. rewrite H4, Z.add_0_r.
  replace (y * (4 * (stride / 4))) with (y * (stride / 4) * 4) by lia.
  apply Z.div_mul. lia.
Qed.

(** Offsets of the program's row pointers are not negative, so C's truncating
    division agrees with [/] and [mod]. *)
Lemma quot_nonneg a b : 0 <= a -> 0 < b -> Z.quot a b = a / b.
Proof. intros. apply Z.quot_div_nonneg; lia. Qed.

Lemma rem_nonneg a b : 0 <= a -> 0 < b -> Z.rem a b = a mod b.
Proof. intros. apply Z.rem_mod_nonneg; lia. Qed.

(** ** The diff loop *)

Lemma a1_index_bounds stride w h x y :
  (w + 7) / 8 <= stride -> 0 <= x < w -> 0 <= y < h ->
  0 <= y * stride + x / 8 < stride * h.
Proof.
  intros Hs Hx Hy.
  apply (a8_index_bounds stride ((w + 7) / 8)); [exact Hs | | exact Hy].
  Z.div_mod_to_equations. lia.
Qed.

(** Two distinct pixels of an A1 surface lie in different bytes, or in
    different bits of one byte. *)
Lemma a1_cell_cases stride w x y x' y' :
  (w + 7) / 8 <= stride -> 0 <= x < w -> 0 <= x' < w -> 0 <= y -> 0 <= y' ->
  x' <> x \/ y' <> y ->
  y' * stride + x' / 8 <> y * stride + x / 8 \/
  (y' * stride + x' / 8 = y * stride + x / 8 /\ x' mod 8 <> x mod 8).
Proof.
  intros Hs Hx Hx' Hy Hy' Hne.
  destruct (Z.eq_dec (y' * stride + x' / 8) (y * stride + x / 8)) as [E | E];
    [right | left; exact E].
  split; [exact E |].
  apply (a8_index_inj stride ((w + 7) / 8)) in E;
    [| exact Hs | Z.div_mod_to_equations; lia | Z.div_mod_to_equations; lia
     | exact Hy' | exact Hy].
  destruct E as [E8 ->]. intros Em.
  assert (x' = x); [| tauto].
  rewrite (Z.div_mod x' 8), (Z.div_mod x 8) by lia. rewrite E8, Em. reflexivity.
Qed.

Lemma testbit_store_other m i v i' k k' :
  0 <= i -> 0 <= i' -> 0 <= i < Z.of_nat (length m) ->
  (k' <> k -> Z.testbit v k' = Z.testbit (load m i) k') ->
  i' <> i \/ (i' = i /\ k' <> k) ->
  Z.testbit (load (store m i v) i') k' = Z.testbit (load m i') k'.
Proof.
  intros Hi Hi' Hlen Hv [Hne | [-> Hk]].
  - rewrite load_store_ne by lia. reflexivity.
  - rewrite load_store_eq by lia. apply Hv. exact Hk.
Qed.

Section DiffLoop.

Variable cfg : config.
Variables (w h ms as_ cs ls : Z).
Variables (current last : list Z).
Variables (nm na : nat).

Hypothesis mask_row : (w + 7) / 8 <= ms.
Hypothesis ages_row : w <= as_.
Hypothesis current_stride : 0 <= cs.
Hypothesis last_stride : 0 <= ls.
Hypothesis mask_size : Z.of_nat nm = ms * h.
Hypothesis ages_size : Z.of_nat na = as_ * h.

Lemma diff_pixel_ok x y st :
  0 <= x < w -> 0 <= y < h -> diff_inv ms as_ cs ls nm na y st ->
  diff_inv ms as_ cs ls nm na y (diff_pixel cfg current last x st) /\
  diff_view ms as_ (diff_pixel cfg current last x st) x y
    = diff_step cfg cs ls current last x y (diff_view ms as_ st x y) /\
  (forall x' y', 0 <= x' < w -> 0 <= y' < h -> x' <> x \/ y' <> y ->
     diff_view ms as_ (diff_pixel cfg current last x st) x' y'
     = diff_view ms as_ st x' y').
Proof.
  intros Hx Hy (Hmo & Hao & Hco & Hlo & Hlm & Hla).
  pose proof (a1_index_bounds ms w h x y mask_row Hx Hy) as Hi.
  pose proof (a8_index_bounds as_ w h x y ages_row Hx Hy) as Hj.
  assert (0 <= y * cs) as Hcs by (apply Z.mul_nonneg_nonneg; lia).
  assert (0 <= y * ls) as Hls by (apply Z.mul_nonneg_nonneg; lia).
  assert (0 <= x mod 8 < 8) as Hk by (apply Z.mod_pos_bound; lia).
  unfold diff_pixel. rewrite Hmo, Hao, Hco, Hlo.
  rewrite (quot_nonneg x 8), (rem_nonneg x 8), !(quot_nonneg _ 4) by lia.
  rewrite mask_test by lia. rewrite negb_involutive.
  unfold diff_view, diff_step, pixel_step, diff_inv, cell_index. cbn [fst snd].
  destruct (Z.testbit (load (ds_mask st) (y * ms + x / 8)) (x mod 8)) eqn:Eb.
  { rewrite Eb. repeat split; assumption. }
  destruct (pixel_different (cfg_threshold cfg) _ _) eqn:Ed; cbn [negb];
    [| destruct (u8 (load (ds_ages st) (y * as_ + x) + 1) >=? cfg_max_age cfg) eqn:Ea];
    cbn [ds_mask ds_ages ds_changed ds_mask_off ds_ages_off ds_current_off ds_last_off];
    rewrite ?length_store.
  - (* changed *)
    split; [repeat split; assumption |]. split.
    + rewrite Eb, load_store_eq by lia. reflexivity.
    + intros x' y' Hx' Hy' Hne. f_equal.
      apply load_store_ne; try lia.
      * pose proof (a8_index_bounds as_ w h x' y' ages_row Hx' Hy'). lia.
      * intros E. apply (a8_index_inj as_ w) in E; lia.
  - (* promoted *)
    split; [repeat split; assumption |]. split.
    + rewrite !load_store_eq by lia. rewrite testbit_set by lia.
      rewrite Z.eqb_refl, orb_true_r. reflexivity.
    + intros x' y' Hx' Hy' Hne.
      assert (0 <= x' mod 8 < 8) as Hk' by (apply Z.mod_pos_bound; lia).
      pose proof (a1_index_bounds ms w h x' y' mask_row Hx' Hy').
      pose proof (a8_index_bounds as_ w h x' y' ages_row Hx' Hy').
      f_equal.
      * apply (testbit_store_other _ _ _ _ (x mod 8)); try lia.
        -- intros Hjk. rewrite testbit_set by lia.
           replace (x mod 8 =? x' mod 8) with false by lia. apply orb_false_r.
        -- apply (a1_cell_cases ms w); try lia.
      * apply load_store_ne; try lia.
        intros E. apply (a8_index_inj as_ w) in E; lia.
  - (* aged *)
    split; [repeat split; assumption |]. split.
    + rewrite Eb, load_store_eq by lia. reflexivity.
    + intros x' y' Hx' Hy' Hne. f_equal.
      apply load_store_ne; try lia.
      * pose proof (a8_index_bounds as_ w h x' y' ages_row Hx' Hy'). lia.
      * intros E. apply (a8_index_inj as_ w) in E; lia.
Qed.

Lemma diff_loop_ok m0 a0 :
  0 <= w -> 0 <= h -> length m0 = nm -> length a0 = na ->
  let st0 := mk_diff m0 a0 false 0 0 0 0 in
  let st := for_range 0 h (diff_row cfg w ms as_ cs ls current last) st0 in
  length (ds_mask st) = nm /\ length (ds_ages st) = na /\
  (forall x y, 0 <= x < w -> 0 <= y < h ->
     diff_view ms as_ st x y
     = diff_step cfg cs ls current last x y (diff_view ms as_ st0 x y)).
Proof.
  intros Hw Hh Hm Ha st0 st.
  destruct (pixel_loop w h (diff_view ms as_) (diff_step cfg cs ls current last)
              (diff_inv ms as_ cs ls nm na)
              (fun _ x => diff_pixel cfg current last x)
              (fun _ t => mk_diff (ds_mask t) (ds_ages t) (ds_changed t)
                            (ds_mask_off t + ms) (ds_ages_off t + as_)
                            (ds_current_off t + cs) (ds_last_off t + ls)))
    with (s0 := st0) as [HI Hview].
  - intros x y t Hx Hy Ht. apply diff_pixel_ok; assumption.
  - intros y t Hy (Hmo & Hao & Hco & Hlo & Hlm & Hla).
    split; [| reflexivity].
    unfold diff_inv. cbn. rewrite Hmo, Hao, Hco, Hlo. repeat split; try lia.
  - exact Hw.
  - exact Hh.
  - unfold diff_inv, st0. cbn. repeat split; try lia.
  - destruct HI as (_ & _ & _ & _ & Hlm & Hla).
    split; [exact Hlm |]. split; [exact Hla |]. exact Hview.
Qed.

End DiffLoop.

(** ** Surfaces *)

Lemma wf_image_a8 w h s :
  wf_image FORMAT_A8 w h s ->
  w <= img_stride s /\ Z.of_nat (length (img_data s)) = img_stride s * h.
Proof.
  intros (_ & _ & _ & Hrow & _ & Hlen). cbn in Hrow, Hlen.
  rewrite Z.div_1_r in Hlen. split; [| exact Hlen].
  Z.div_mod_to_equations. lia.
Qed.

Lemma wf_image_a1 w h s :
  wf_image FORMAT_A1 w h s ->
  (w + 7) / 8 <= img_stride s /\ Z.of_nat (length (img_data s)) = img_stride s * h.
Proof.
  intros (_ & _ & _ & Hrow & _ & Hlen). cbn in Hrow, Hlen.
  rewrite Z.div_1_r in Hlen. split; [| exact Hlen].
  destruct w; exact Hrow.
Qed.

Lemma wf_image_rgb w h s :
  wf_image FORMAT_RGB24 w h s ->
  w <= img_stride s / 4 /\ img_stride s mod 4 = 0 /\
  Z.of_nat (length (img_data s)) = img_stride s / 4 * h.
Proof.
  intros (_ & _ & _ & Hrow & H4 & Hlen). cbn in Hrow, H4, Hlen.
  split; [| split; assumption].
  Z.div_mod_to_equations. lia.
Qed.

Lemma wf_image_with_data f w h s d :
  wf_image f w h s -> length d = length (img_data s) -> wf_image f w h (with_data s d).
Proof.
  intros (Hf & Hw & Hh & Hrow & H4 & Hlen) Hd.
  unfold wf_image, with_data. cbn. rewrite Hd. tauto.
Qed.

Lemma wf_image_create f w h :
  0 < w -> 0 < h -> wf_image f w h (cairo_image_surface_create f w h).
Proof.
  intros Hw Hh. unfold wf_image, cairo_image_surface_create. cbn.
  rewrite repeat_length.
  assert (0 <= cairo_stride f w / cell_bytes f * h) as Hnn.
  { apply Z.mul_nonneg_nonneg; [| lia].
    unfold cairo_stride. destruct f; cbn; Z.div_mod_to_equations; lia. }
  repeat split; try lia.
  - unfold cairo_stride. destruct f; cbn; Z.div_mod_to_equations; lia.
  - unfold cairo_stride. destruct f; cbn; Z.div_mod_to_equations; lia.
Qed.

Lemma wf_image_create_similar w h :
  0 < w -> 0 < h -> wf_image FORMAT_A8 w h (create_similar_alpha_surface w h).
Proof.
  intros Hw Hh. unfold wf_image, create_similar_alpha_surface. cbn.
  rewrite repeat_length, Z.div_1_r.
  repeat split; try lia.
  - Z.div_mod_to_equations. lia.
  - apply Z.mod_1_r.
Qed.

(** A loop that rewrites the cell of each pixel in turn. *)
Lemma for_pixels_cells s (idx : Z -> Z -> Z) (g : Z -> Z -> Z -> Z) :
  0 <= img_width s -> 0 <= img_height s ->
  (forall x y, 0 <= x < img_width s -> 0 <= y < img_height s ->
     0 <= idx x y < Z.of_nat (length (img_data s))) ->
  (forall x y x' y', 0 <= x < img_width s -> 0 <= y < img_height s ->
     0 <= x' < img_width s -> 0 <= y' < img_height s ->
     idx x y = idx x' y' -> x = x' /\ y = y') ->
  let s' := for_pixels s (fun x y d => store d (idx x y) (g x y (load d (idx x y)))) in
  length (img_data s') = length (img_data s) /\
  (forall x y, 0 <= x < img_width s -> 0 <= y < img_height s ->
     load (img_data s') (idx x y) = g x y (load (img_data s) (idx x y))).
Proof.
  intros Hw Hh Hin Hinj s'.
  destruct (pixel_loop (img_width s) (img_height s)
              (fun d x y => load d (idx x y)) g
              (fun _ d => length d = length (img_data s))
              (fun y x d => store d (idx x y) (g x y (load d (idx x y))))
              (fun _ d => d))
    with (s0 := img_data s) as [HI Hview].
  - intros x y d Hx Hy Hd. split; [rewrite length_store; exact Hd |]. split.
    + apply load_store_eq. rewrite Hd. apply Hin; assumption.
    + intros x' y' Hx' Hy' Hne. apply load_store_ne.
      * apply Hin; assumption.
      * apply Hin; assumption.
      * intros E. apply Hinj in E; try assumption. lia.
  - intros y d Hy Hd. split; [exact Hd | reflexivity].
  - exact Hw.
  - exact Hh.
  - reflexivity.
  - split; [exact HI | exact Hview].
Qed.

Lemma paint_window_ok screen w h s :
  0 <= w -> 0 <= h -> wf_image FORMAT_RGB24 w h s ->
  wf_image FORMAT_RGB24 w h (paint_window screen s) /\
  img_stride (paint_window screen s) = img_stride s /\
  (forall x y, 0 <= x < w -> 0 <= y < h ->
     rgb_get (paint_window screen s) x y = u32 (screen x y)).
Proof.
  intros Hw Hh Hwf.
  pose proof Hwf as (Hf & Hsw & Hsh & _).
  destruct (wf_image_rgb w h s Hwf) as (Hrow & H4 & Hlen).
  destruct (for_pixels_cells s (cell_index FORMAT_RGB24 (img_stride s))
              (fun x y _ => u32 (screen x y))) as [Hl Hv].
  - lia.
  - lia.
  - intros x y Hx Hy. cbn [cell_index]. rewrite rgb_index_eq, Hlen by exact H4.
    apply (a8_index_bounds _ w); lia.
  - intros x y x' y' Hx Hy Hx' Hy' E. cbn [cell_index] in E.
    rewrite !rgb_index_eq in E by exact H4.
    apply (a8_index_inj _ w) in E; lia.
  - split; [| split].
    + apply wf_image_with_data; [exact Hwf | exact Hl].
    + reflexivity.
    + intros x y Hx Hy. unfold rgb_get. apply Hv; lia.
Qed.

Lemma paint_mask_wf src w h s :
  0 <= w -> 0 <= h -> wf_image FORMAT_A8 w h s ->
  wf_image FORMAT_A8 w h (paint_mask src s).
Proof.
  intros Hw Hh Hwf.
  pose proof Hwf as (Hf & Hsw & Hsh & _).
  destruct (wf_image_a8 w h s Hwf) as (Hrow & Hlen).
  destruct (for_pixels_cells s (cell_index FORMAT_A8 (img_stride s))
              (fun x y _ => if (x <? img_width src) && (y <? img_height src)
                                 && a1_get src x y then 255 else 0)) as [Hl _].
  - lia.
  - lia.
  - intros x y Hx Hy. cbn [cell_index]. rewrite Hlen.
    apply (a8_index_bounds _ w); lia.
  - intros x y x' y' Hx Hy Hx' Hy' E. cbn [cell_index] in E.
    apply (a8_index_inj _ w) in E; lia.
  - apply wf_image_with_data; [exact Hwf | exact Hl].
Qed.

Lemma clear_a8_ok arc_alpha xc yc r w h s :
  0 <= w -> 0 <= h -> wf_image FORMAT_A8 w h s ->
  wf_image FORMAT_A8 w h (cairo_fill_arc_clear arc_alpha xc yc r s) /\
  (forall x y, 0 <= x < w -> 0 <= y < h ->
     a8_get (cairo_fill_arc_clear arc_alpha xc yc r s) x y
     = clear8 (arc_alpha xc yc r x y) (a8_get s x y)).
Proof.
  intros Hw Hh Hwf.
  pose proof Hwf as (Hf & Hsw & Hsh & _).
  destruct (wf_image_a8 w h s Hwf) as (Hrow & Hlen).
  unfold cairo_fill_arc_clear. rewrite Hf. unfold clear_cell.
  destruct (for_pixels_cells s (cell_index FORMAT_A8 (img_stride s))
              (fun x y v => clear8 (arc_alpha xc yc r x y) v)) as [Hl Hv].
  - lia.
  - lia.
  - intros x y Hx Hy. cbn [cell_index]. rewrite Hlen.
    apply (a8_index_bounds _ w); lia.
  - intros x y x' y' Hx Hy Hx' Hy' E. cbn [cell_index] in E.
    apply (a8_index_inj _ w) in E; lia.
  - split.
    + apply wf_image_with_data; [exact Hwf | exact Hl].
    + intros x y Hx Hy. unfold a8_get. apply Hv; lia.
Qed.

Lemma clear_a1_ok arc_alpha xc yc r w h s :
  0 <= w -> 0 <= h -> wf_image FORMAT_A1 w h s ->
  wf_image FORMAT_A1 w h (cairo_fill_arc_clear arc_alpha xc yc r s) /\
  (forall x y, 0 <= x < w -> 0 <= y < h ->
     a1_get (cairo_fill_arc_clear arc_alpha xc yc r s) x y
     = a1_get s x y && negb (clear1 (arc_alpha xc yc r x y))).
Proof.
  intros Hw Hh Hwf.
  pose proof Hwf as (Hf & Hsw & Hsh & _).
  destruct (wf_image_a1 w h s Hwf) as (Hrow & Hlen).
  unfold cairo_fill_arc_clear. rewrite Hf. unfold clear_cell. cbn [cell_index].
  destruct (pixel_loop (img_width s) (img_height s)
              (fun d x y => Z.testbit (load d (y * img_stride s + x / 8)) (x mod 8))
              (fun x y b => b && negb (clear1 (arc_alpha xc yc r x y)))
              (fun _ d => length d = length (img_data s))
              (fun y x d =>
                 if clear1 (arc_alpha xc yc r x y)
                 then store d (y * img_stride s + x / 8)
                        (Z.clearbit (load d (y * img_stride s + x / 8)) (x mod 8))
                 else d)
              (fun _ d => d))
    with (s0 := img_data s) as [HI Hview].
  - intros x y d Hx Hy Hd.
    assert (0 <= x mod 8 < 8) as Hk by (apply Z.mod_pos_bound; lia).
    pose proof (a1_index_bounds (img_stride s) w h x y Hrow ltac:(lia) ltac:(lia)) as Hi.
    destruct (clear1 (arc_alpha xc yc r x y)); cbn [negb].
    + split; [rewrite length_store; exact Hd |]. split.
      * rewrite load_store_eq by lia. rewrite testbit_clearbit by lia.
        rewrite Z.eqb_refl. cbn [negb]. rewrite !andb_false_r. reflexivity.
      * intros x' y' Hx' Hy' Hne.
        assert (0 <= x' mod 8 < 8) as Hk' by (apply Z.mod_pos_bound; lia).
        pose proof (a1_index_bounds (img_stride s) w h x' y' Hrow ltac:(lia) ltac:(lia)).
        apply (testbit_store_other _ _ _ _ (x mod 8)); try lia.
        -- intros Hjk. rewrite testbit_clearbit by lia.
           replace (x mod 8 =? x' mod 8) with false by lia. apply andb_true_r.
        -- apply (a1_cell_cases _ w); lia.
    + split; [exact Hd |]. split; [rewrite andb_true_r; reflexivity |].
      intros; reflexivity.
  - intros y d Hy Hd. split; [exact Hd | reflexivity].
  - lia.
  - lia.
  - reflexivity.
  - split.
    + apply wf_image_with_data; [exact Hwf | exact HI].
    + intros x y Hx Hy. unfold a1_get, for_pixels. cbn [with_data img_data img_stride cell_index].
      apply Hview; lia.
Qed.

(** ** The capture handler, pixel by pixel *)

Section Capture.

Variable cfg : config.

Lemma capture_uninitialized screen d :
  initialized d = false -> on_screen_capture_timer cfg screen d = (d, true).
Proof. intros H. unfold on_screen_capture_timer. rewrite H. reflexivity. Qed.

Lemma get_capture_wf d i :
  wf_data d -> wf_image FORMAT_RGB24 (width d) (height d) (get_capture d i).
Proof.
  intros (_ & _ & _ & _ & _ & H0 & H1 & _). unfold get_capture.
  destruct (i =? 0); assumption.
Qed.

Lemma capture_spec screen d :
  active d ->
  let d' := fst (on_screen_capture_timer cfg screen d) in
  active d' /\
  width d' = width d /\ height d' = height d /\
  bar_x d' = bar_x d /\ pointer_x d' = pointer_x d /\ pointer_y d' = pointer_y d /\
  (forall x y, in_bounds d x y ->
     (stale d' x y, age d' x y)
     = pixel_step cfg (stale d x y) (age d x y) (u32 (screen x y)) (previous_pixel d x y)) /\
  (forall x y, in_bounds d x y -> previous_pixel d' x y = u32 (screen x y)).
Proof.
  intros [Hinit Hwf] d'.
  pose proof Hwf as (Hw & Hh & Hmask & Hmi & Hpa & Hc0 & Hc1 & Hci).
  pose proof (get_capture_wf d (capture_index d) Hwf) as Hcur.
  pose proof (get_capture_wf d (1 - capture_index d) Hwf) as Hlast.
  destruct (paint_window_ok screen (width d) (height d) _ ltac:(lia) ltac:(lia) Hcur)
    as (Hpw & Hps & Hpv).
  destruct (wf_image_a1 _ _ _ Hmi) as (Hmrow & Hmlen).
  destruct (wf_image_a8 _ _ _ Hpa) as (Harow & Halen).
  destruct (wf_image_rgb _ _ _ Hcur) as (Hcrow & _ & _).
  destruct (wf_image_rgb _ _ _ Hlast) as (Hlrow & _ & _).
  destruct (diff_loop_ok cfg (width d) (height d)
              (img_stride (mask_image d)) (img_stride (pixel_ages d))
              (img_stride (paint_window screen (get_capture d (capture_index d))))
              (img_stride (get_capture d (1 - capture_index d)))
              (img_data (paint_window screen (get_capture d (capture_index d))))
              (img_data (get_capture d (1 - capture_index d)))
              (length (img_data (mask_image d))) (length (img_data (pixel_ages d)))
              Hmrow Harow
              ltac:(rewrite Hps; Z.div_mod_to_equations; lia)
              ltac:(Z.div_mod_to_equations; lia)
              Hmlen Halen
              (img_data (mask_image d)) (img_data (pixel_ages d))
              ltac:(lia) ltac:(lia) eq_refl eq_refl)
    as (Hlm & Hla & Hview).
  subst d'. unfold on_screen_capture_timer. rewrite Hinit. cbn [negb fst].
  match goal with
  | |- context [for_range 0 (height d) ?row ?st0] =>
      set (st := for_range 0 (height d) row st0) in *
  end.
  cbn [width height bar_x pointer_x pointer_y initialized].
  assert (wf_image FORMAT_A1 (width d) (height d) (with_data (mask_image d) (ds_mask st)))
    as Hmi' by (apply wf_image_with_data; assumption).
  split; [| repeat split; try reflexivity].
  - split; [reflexivity |]. unfold wf_data.
    cbn [width height mask mask_image pixel_ages captures capture_index].
    split; [exact Hw |]. split; [exact Hh |]. split.
    { destruct (ds_changed st); [| exact Hmask].
      apply paint_mask_wf; [lia | lia | exact Hmask]. }
    split; [exact Hmi' |]. split; [apply wf_image_with_data; assumption |].
    unfold set_capture, get_capture in *.
    destruct Hci as [E | E]; rewrite E in *; cbn [Z.eqb fst snd] in *;
      (split; [assumption |]); (split; [assumption |]); lia.
  - intros x y [Hx Hy].
    specialize (Hview x y Hx Hy). unfold diff_view, diff_step in Hview.
    cbn [ds_mask ds_ages fst snd] in Hview.
    unfold stale, age, previous_pixel, a1_get, a8_get.
    cbn [mask_image pixel_ages with_data img_data img_stride].
    rewrite Hview. f_equal.
    fold (rgb_get (paint_window screen (get_capture d (capture_index d))) x y).
    apply Hpv; assumption.
  - intros x y [Hx Hy]. unfold previous_pixel.
    cbn [capture_index captures]. unfold get_capture at 1. cbn [captures].
    unfold set_capture.
    destruct Hci as [E | E]; rewrite E in *; cbn in *; apply Hpv; assumption.
Qed.

End Capture.

(** ** The pointer handler *)

Section Pointer.

Variable cfg : config.
Variable arc_alpha : coverage_fn.

Lemma pointer_clear_spec x y d :
  active d ->
  let d' := pointer_clear cfg arc_alpha x y d in
  active d' /\
  width d' = width d /\ height d' = height d /\
  bar_x d' = bar_x d /\ pointer_x d' = x /\ pointer_y d' = y /\
  (forall px py, in_bounds d px py ->
     stale d' px py
     = stale d px py && negb (clear1 (arc_alpha x y (cfg_radius cfg) px py)) /\
     age d' px py = clear8 (arc_alpha x y (cfg_radius cfg) px py) (age d px py)).
Proof.
  intros [Hinit Hwf] d'.
  pose proof Hwf as (Hw & Hh & Hmask & Hmi & Hpa & Hc0 & Hc1 & Hci).
  destruct (clear_a8_ok arc_alpha x y (cfg_radius cfg) (width d) (height d) _ ltac:(lia) ltac:(lia) Hmask)
    as [Hmask' _].
  destruct (clear_a1_ok arc_alpha x y (cfg_radius cfg) (width d) (height d) _ ltac:(lia) ltac:(lia) Hmi)
    as [Hmi' Hbits].
  destruct (clear_a8_ok arc_alpha x y (cfg_radius cfg) (width d) (height d) _ ltac:(lia) ltac:(lia) Hpa)
    as [Hpa' Hages].
  subst d'. unfold pointer_clear, clear_arc. cbn.
  split; [| repeat split; try reflexivity].
  - split; [exact Hinit |]. unfold wf_data. cbn. tauto.
  - apply Hbits; apply H.
  - apply Hages; apply H.
Qed.

Lemma poll_twice x y d :
  fst (on_mouse_poll_timer cfg arc_alpha x y
         (fst (on_mouse_poll_timer cfg arc_alpha x y d)))
  = fst (on_mouse_poll_timer cfg arc_alpha x y d).
Proof.
  unfold on_mouse_poll_timer at 2.
  destruct (initialized d) eqn:Hinit; cbn [negb].
  - destruct ((pointer_x d =? x) && (pointer_y d =? y)) eqn:Hsame; cbn [fst].
    + unfold on_mouse_poll_timer. rewrite Hinit, Hsame. reflexivity.
    + unfold on_mouse_poll_timer. cbn [pointer_clear initialized pointer_x pointer_y].
      rewrite Hinit, Hsame, !Z.eqb_refl. reflexivity.
  - cbn [fst]. unfold on_mouse_poll_timer. rewrite Hinit. reflexivity.
Qed.

Lemma clear8_full a v : clamp_alpha a = 255 -> clear8 a v = 0.
Proof. intros H. unfold clear8. rewrite H. rewrite Z.sub_diag, Z.mul_0_r. reflexivity. Qed.

Lemma clear8_none a v : clamp_alpha a = 0 -> clear8 a v = v.
Proof. intros H. unfold clear8. rewrite H. rewrite Z.sub_0_r. apply Z.div_mul. lia. Qed.

Lemma clear8_zero a : clear8 a 0 = 0.
Proof. reflexivity. Qed.

Lemma clear8_le a v : 0 <= v -> 0 <= clear8 a v <= v.
Proof.
  intros Hv. unfold clear8, clamp_alpha.
  assert (0 <= 255 - Z.max 0 (Z.min 255 a) <= 255) as Hc by lia.
  split.
  - apply Z.div_pos; [apply Z.mul_nonneg_nonneg |]; lia.
  - apply Z.div_le_upper_bound; [lia |]. nia.
Qed.

Lemma clear1_full a : clamp_alpha a = 255 -> clear1 a = true.
Proof. intros H. unfold clear1. rewrite H. reflexivity. Qed.

Lemma clear1_none a : clamp_alpha a = 0 -> clear1 a = false.
Proof. intros H. unfold clear1. rewrite H. reflexivity. Qed.

End Pointer.

Lemma ideal_alpha_exact : exact_on_disc ideal_alpha.
Proof.
  intros xc yc r x y. unfold ideal_alpha. split; intros H.
  - rewrite H. reflexivity.
  - destruct (inside_circle xc yc r x y) eqn:Hin; [| rewrite H; reflexivity].
    exfalso. unfold inside_circle, outside_circle in *.
    apply Z.leb_le in Hin. apply Z.ltb_lt in H.
    assert (near_sq xc x <= far_sq xc x /\ near_sq yc y <= far_sq yc y) as [? ?]; [| lia].
    unfold near_sq, far_sq.
    split.
    + destruct ((x <=? xc) && (xc <=? x + 1)); [nia | lia].
    + destruct ((y <=? yc) && (yc <=? y + 1)); [nia | lia].
Qed.

(** ** The draw handlers *)

Section Drawing.

Variable cfg : config.

Lemma on_draw_fresh w h d :
  0 < w -> 0 < h ->
  capture_index d = 0 \/ capture_index d = 1 ->
  initialized d = false \/ width d <> w \/ height d <> h ->
  exists d', on_draw cfg w h d = Some d' /\
    active d' /\ width d' = w /\ height d' = h /\
    capture_index d' = capture_index d /\
    pointer_x d' = pointer_x d /\ pointer_y d' = pointer_y d /\
    bar_x d' = (if initialized d then u32 (bar_x d * u32 w) / u32 (width d)
                else bar_x d) /\
    (forall x y, age d' x y = 0 /\ stale d' x y = false).
Proof.
  intros Hw Hh Hci Hnew. unfold on_draw.
  replace ((w =? 0) || (h =? 0)) with false
    by (symmetry; apply orb_false_iff; split; apply Z.eqb_neq; lia).
  replace (negb (initialized d) || negb (width d =? w) || negb (height d =? h)) with true.
  2: { symmetry. destruct Hnew as [-> | [Hn | Hn]]; [reflexivity | |];
       apply Z.eqb_neq in Hn; rewrite Hn; cbn; rewrite ?orb_true_r; reflexivity. }
  eexists. split; [reflexivity |]. cbn.
  split; [| repeat split; try reflexivity].
  - split; [reflexivity |]. unfold wf_data. cbn.
    pose proof (wf_image_create_similar w h Hw Hh).
    pose proof (fun f => wf_image_create f w h Hw Hh).
    split; [exact Hw |]. split; [exact Hh |]. split; [assumption |].
    do 4 (split; [auto |]). exact Hci.
  - unfold age, a8_get. cbn. apply load_repeat_zero.
  - unfold stale, a1_get. cbn. rewrite load_repeat_zero. apply Z.bits_0.
Qed.
End Drawing.

(** ** The claims about the capture handler *)

Section CaptureClaims.

Variable cfg : config.

(** C1: on a capture tick, a pixel that is classified unchanged and is not
    masked has its age incremented by exactly 1; when the incremented age
    reaches the maximum age the pixel's mask bit is set and its age is reset
    to 0 in the same tick.  The age is an unsigned char that has not reached
    255 (ages of a running session stay below the maximum age). *)
Theorem C1_unchanged_pixel_ages_by_one :
  forall screen d x y,
    active d -> in_bounds d x y ->
    stale d x y = false ->
    0 <= age d x y < 255 ->
    pixel_different (cfg_threshold cfg) (u32 (screen x y)) (previous_pixel d x y) = false ->
    let d' := fst (on_screen_capture_timer cfg screen d) in
    (age d x y + 1 < cfg_max_age cfg ->
       age d' x y = age d x y + 1 /\ stale d' x y = false) /\
    (cfg_max_age cfg <= age d x y + 1 ->
       stale d' x y = true /\ age d' x y = 0).
Proof.
  intros screen d x y Hact Hin Hst Hage Hsame d'.
  destruct (capture_spec cfg screen d Hact) as (_ & _ & _ & _ & _ & _ & Hpix & _).
  specialize (Hpix x y Hin). fold d' in Hpix.
  unfold pixel_step in Hpix. rewrite Hst, Hsame in Hpix.
  assert (u8 (age d x y + 1) = age d x y + 1) as Hu8
    by (unfold u8; apply Z.mod_small; lia).
  rewrite Hu8 in Hpix.
  split; intros Hmax.
  - replace (age d x y + 1 >=? cfg_max_age cfg) with false in Hpix by lia.
    injection Hpix as Hs Ha. split; assumption.
  - replace (age d x y + 1 >=? cfg_max_age cfg) with true in Hpix by lia.
    injection Hpix as Hs Ha. split; assumption.
Qed.

Lemma capture_resets_changed screen d x y :
  active d -> stale_age_zero d -> in_bounds d x y ->
  some_channel_changed (cfg_threshold cfg) (u32 (screen x y)) (previous_pixel d x y) ->
  age (fst (on_screen_capture_timer cfg screen d)) x y = 0.
Proof.
  intros Hact Hinv Hin Hch.
  destruct (capture_spec cfg screen d Hact) as (_ & _ & _ & _ & _ & _ & Hpix & _).
  specialize (Hpix x y Hin). unfold pixel_step in Hpix.
  apply pixel_different_true in Hch. rewrite Hch in Hpix.
  destruct (stale d x y) eqn:Hst; injection Hpix as Hs Ha.
  - rewrite Ha. apply Hinv; assumption.
  - exact Ha.
Qed.

(** C4: on a capture tick, a pixel of which some colour component differs by
    at least the threshold between the two captures has age 0 afterwards,
    whatever its age was: the session stays well formed at its size, so the
    pixel still has its cell in the age map, and that cell holds 0.  (A
    masked pixel is skipped by the loop; its age is 0 already, by the
    invariant of the session.) *)
Theorem C4_changed_pixel_has_age_zero :
  forall screen d x y,
    active d -> stale_age_zero d -> in_bounds d x y ->
    some_channel_changed (cfg_threshold cfg) (u32 (screen x y)) (previous_pixel d x y) ->
    let d' := fst (on_screen_capture_timer cfg screen d) in
    active d' /\ width d' = width d /\ height d' = height d /\
    in_bounds d' x y /\
    age d' x y = 0.
Proof.
  intros screen d x y Hact Hinv Hin Hch d'.
  destruct (capture_spec cfg screen d Hact) as (Hact' & Hw & Hh & _).
  fold d' in Hact', Hw, Hh.
  split; [exact Hact' |]. split; [exact Hw |]. split; [exact Hh |]. split.
  - unfold in_bounds in *. rewrite Hw, Hh. exact Hin.
  - apply capture_resets_changed; assumption.
Qed.

Lemma capture_keeps_mask screen d x y :
  active d -> in_bounds d x y -> stale d x y = true ->
  stale (fst (on_screen_capture_timer cfg screen d)) x y = true.
Proof.
  intros Hact Hin Hst.
  destruct (capture_spec cfg screen d Hact) as (_ & _ & _ & _ & _ & _ & Hpix & _).
  specialize (Hpix x y Hin). unfold pixel_step in Hpix. rewrite Hst in Hpix.
  injection Hpix as Hs Ha. exact Hs.
Qed.

Lemma capture_keeps_inv screen d :
  active d -> stale_age_zero d ->
  stale_age_zero (fst (on_screen_capture_timer cfg screen d)).
Proof.
  intros Hact Hinv.
  destruct (capture_spec cfg screen d Hact) as (_ & Hw & Hh & _ & _ & _ & Hpix & _).
  intros x y Hin Hst.
  assert (in_bounds d x y) as Hin' by (unfold in_bounds in *; rewrite <- Hw, <- Hh; exact Hin).
  specialize (Hpix x y Hin'). unfold pixel_step in Hpix.
  destruct (stale d x y) eqn:Hs0.
  - injection Hpix as Hs Ha. rewrite Ha. apply Hinv; assumption.
  - destruct (pixel_different _ _ _).
    + injection Hpix as Hs Ha. exact Ha.
    + destruct (_ >=? _); injection Hpix as Hs Ha; [exact Ha | congruence].
Qed.

Lemma capture_keeps_ages_below screen d :
  active d -> 0 < cfg_max_age cfg -> ages_below (cfg_max_age cfg) d ->
  ages_below (cfg_max_age cfg) (fst (on_screen_capture_timer cfg screen d)).
Proof.
  intros Hact Hmax Hinv.
  destruct (capture_spec cfg screen d Hact) as (_ & Hw & Hh & _ & _ & _ & Hpix & _).
  intros x y Hin.
  assert (in_bounds d x y) as Hin' by (unfold in_bounds in *; rewrite <- Hw, <- Hh; exact Hin).
  specialize (Hpix x y Hin'). specialize (Hinv x y Hin'). unfold pixel_step in Hpix.
  assert (0 <= u8 (age d x y + 1)) by (unfold u8; apply Z.mod_pos_bound; lia).
  destruct (stale d x y); [injection Hpix as Hs Ha; lia |].
  destruct (pixel_different _ _ _); [injection Hpix as Hs Ha; lia |].
  destruct (_ >=? _) eqn:E; injection Hpix as Hs Ha; lia.
Qed.

End CaptureClaims.

Section HandlerClaims.

Variable cfg : config.
Variable arc_alpha : coverage_fn.

Lemma poll_spec x y d :
  active d ->
  let d' := fst (on_mouse_poll_timer cfg arc_alpha x y d) in
  active d' /\ width d' = width d /\ height d' = height d /\ bar_x d' = bar_x d /\
  (forall px py, in_bounds d px py ->
     (stale d' px py = true -> stale d px py = true) /\
     (age d px py = 0 -> age d' px py = 0) /\
     (0 <= age d px py -> 0 <= age d' px py <= age d px py) /\
     (clamp_alpha (arc_alpha x y (cfg_radius cfg) px py) = 0 ->
        stale d' px py = stale d px py /\ age d' px py = age d px py)).
Proof.
  intros Hact d'. subst d'. unfold on_mouse_poll_timer.
  destruct Hact as [Hinit Hwf]. rewrite Hinit. cbn [negb].
  destruct ((pointer_x d =? x) && (pointer_y d =? y)); cbn [fst].
  - split; [split; assumption |]. repeat split; try reflexivity; try tauto; lia.
  - destruct (pointer_clear_spec cfg arc_alpha x y d (conj Hinit Hwf))
      as (Hact' & Hw & Hh & Hb & _ & _ & Hpix).
    split; [exact Hact' |]. split; [exact Hw |]. split; [exact Hh |].
    split; [exact Hb |].
    intros px py Hin. destruct (Hpix px py Hin) as [Hs Ha].
    rewrite Hs, Ha. repeat split.
    + intros H. apply andb_true_iff in H. tauto.
    + intros ->. apply clear8_zero.
    + apply clear8_le. assumption.
    + apply clear8_le. assumption.
    + rewrite clear1_none by assumption. apply andb_true_r.
    + apply clear8_none. assumption.
Qed.

(** C8: polling the pointer twice at one position leaves [data] as polling it
    once does; the pointer-clear zeroes the age and unsets the mask bit of
    every pixel inside the circle, and leaves the age and the mask bit of
    every pixel strictly outside the circle as they were, also when it is
    applied a second time.  The rasteriser is taken to be exact away from the
    rim of the circle. *)
Theorem C8_pointer_clear_idempotent :
  forall x y d,
    exact_on_disc arc_alpha -> active d ->
    fst (on_mouse_poll_timer cfg arc_alpha x y
           (fst (on_mouse_poll_timer cfg arc_alpha x y d)))
    = fst (on_mouse_poll_timer cfg arc_alpha x y d) /\
    (pointer_x d <> x \/ pointer_y d <> y ->
     fst (on_mouse_poll_timer cfg arc_alpha x y d) = pointer_clear cfg arc_alpha x y d) /\
    (forall px py,
       in_bounds d px py -> inside_circle x y (cfg_radius cfg) px py = true ->
       let once := pointer_clear cfg arc_alpha x y d in
       let twice := pointer_clear cfg arc_alpha x y once in
       (age once px py = 0 /\ stale once px py = false) /\
       (age twice px py = 0 /\ stale twice px py = false)) /\
    (forall px py,
       in_bounds d px py -> outside_circle x y (cfg_radius cfg) px py = true ->
       let once := pointer_clear cfg arc_alpha x y d in
       let twice := pointer_clear cfg arc_alpha x y once in
       (age once px py = age d px py /\ stale once px py = stale d px py) /\
       (age twice px py = age d px py /\ stale twice px py = stale d px py)).
Proof.
  intros x y d Hexact Hact.
  destruct (pointer_clear_spec cfg arc_alpha x y d Hact)
    as (Hact1 & Hw1 & Hh1 & _ & _ & _ & Hpix1).
  destruct (pointer_clear_spec cfg arc_alpha x y _ Hact1)
    as (_ & _ & _ & _ & _ & _ & Hpix2).
  split; [apply poll_twice |]. split; [| split].
  - intros Hmoved. unfold on_mouse_poll_timer.
    destruct Hact as [-> _]. cbn [negb].
    replace ((pointer_x d =? x) && (pointer_y d =? y)) with false; [reflexivity |].
    symmetry. apply andb_false_iff. destruct Hmoved as [H | H]; [left | right]; lia.
  - intros px py Hin Hins once twice.
    assert (in_bounds once px py) as Hin1
      by (unfold in_bounds, once in *; rewrite Hw1, Hh1; exact Hin).
    destruct (Hexact x y (cfg_radius cfg) px py) as [Hfull _]. specialize (Hfull Hins).
    destruct (Hpix1 px py Hin) as [Hs1 Ha1]. destruct (Hpix2 px py Hin1) as [Hs2 Ha2].
    fold once in Hs1, Ha1, Hs2, Ha2. fold twice in Hs2, Ha2.
    rewrite Hs2, Ha2, Hs1, Ha1.
    rewrite !clear8_full, clear1_full by assumption. cbn [negb].
    rewrite !andb_false_r. repeat split.
  - intros px py Hin Hout once twice.
    assert (in_bounds once px py) as Hin1
      by (unfold in_bounds, once in *; rewrite Hw1, Hh1; exact Hin).
    destruct (Hexact x y (cfg_radius cfg) px py) as [_ Hnone]. specialize (Hnone Hout).
    destruct (Hpix1 px py Hin) as [Hs1 Ha1]. destruct (Hpix2 px py Hin1) as [Hs2 Ha2].
    fold once in Hs1, Ha1, Hs2, Ha2. fold twice in Hs2, Ha2.
    rewrite Hs2, Ha2, Hs1, Ha1.
    rewrite !clear8_none, clear1_none by assumption. cbn [negb].
    rewrite !andb_true_r. repeat split.
Qed.

(** C10: before the first draw has set up the session, the capture handler and
    the pointer handler return at once: [data] is left as it is, whatever the
    screen shows and wherever the pointer is, and the handler returns TRUE, so
    its timer stays installed. *)
Theorem C10_handlers_idle_before_first_draw :
  forall screen x y d,
    initialized d = false ->
    on_screen_capture_timer cfg screen d = (d, true) /\
    on_mouse_poll_timer cfg arc_alpha x y d = (d, true).
Proof.
  intros screen x y d Hinit.
  unfold on_screen_capture_timer, on_mouse_poll_timer. rewrite Hinit. split; reflexivity.
Qed.

(** C7: an animation tick moves the bar to [(old_pos + increment) mod width];
    from a position in [0, width) the new position is again in [0, width). *)
Theorem C7_bar_position_wraps :
  forall d,
    0 < width d < 2 ^ 31 -> 0 <= bar_x d < width d ->
    0 <= cfg_increment cfg < 2 ^ 31 ->
    exists d', on_draw_timer cfg d = Some (d', true) /\
      bar_x d' = (bar_x d + cfg_increment cfg) mod width d /\
      0 <= bar_x d' < width d.
Proof.
  intros d Hw Hb Hinc. unfold on_draw_timer.
  replace (width d =? 0) with false by lia.
  eexists. split; [reflexivity |]. cbn [bar_x].
  unfold u32.
  rewrite (Z.mod_small (bar_x d + cfg_increment cfg)), (Z.mod_small (width d)) by lia.
  split; [reflexivity |]. apply Z.mod_pos_bound. lia.
Qed.

Lemma draw_timer_spec d :
  active d ->
  exists d', on_draw_timer cfg d = Some (d', true) /\
    active d' /\ width d' = width d /\ height d' = height d /\
    capture_index d' = capture_index d /\
    (forall x y, stale d' x y = stale d x y /\ age d' x y = age d x y).
Proof.
  intros [Hinit Hwf]. pose proof Hwf as (Hw & _).
  unfold on_draw_timer. replace (width d =? 0) with false by lia.
  eexists. split; [reflexivity |].
  split; [split; [exact Hinit | exact Hwf] |]. repeat split.
Qed.

Lemma redraw_same_size d :
  active d -> on_draw cfg (width d) (height d) d = Some d.
Proof.
  intros [Hinit (Hw & Hh & _)]. unfold on_draw.
  replace (width d =? 0) with false by lia. replace (height d =? 0) with false by lia.
  rewrite Hinit, !Z.eqb_refl. reflexivity.
Qed.

(** C9: every handler keeps the invariant that a pixel whose mask bit is set
    has age 0: each deliverable event takes a state with the invariant to a
    state with the invariant. *)
Theorem C9_masked_pixels_have_age_zero :
  forall e d,
    session_inv d -> deliverable e d ->
    exists d', step cfg arc_alpha e d = Some d' /\ session_inv d'.
Proof.
  intros e d [Hci Hinv] Hdel. destruct e as [w h | | screen | x y]; cbn [step].
  - (* draw *)
    destruct Hdel as [Hw Hh].
    destruct (initialized d) eqn:Hinit.
    + destruct (Hinv eq_refl) as [Hwf Hzero].
      destruct (Z.eq_dec (width d) w) as [Ew | Ew];
        [destruct (Z.eq_dec (height d) h) as [Eh | Eh] |].
      * subst w h. rewrite redraw_same_size by (split; assumption).
        exists d. split; [reflexivity |]. split; [exact Hci |]. intros _. split; assumption.
      * destruct (on_draw_fresh cfg w h d Hw Hh Hci ltac:(tauto))
          as (d' & -> & [Hi' Hwf'] & _ & _ & Hci' & _ & _ & _ & Hclean).
        exists d'. split; [reflexivity |]. split; [rewrite Hci'; exact Hci |].
        intros _. split; [exact Hwf' |]. intros px py _ _. apply Hclean.
      * destruct (on_draw_fresh cfg w h d Hw Hh Hci ltac:(tauto))
          as (d' & -> & [Hi' Hwf'] & _ & _ & Hci' & _ & _ & _ & Hclean).
        exists d'. split; [reflexivity |]. split; [rewrite Hci'; exact Hci |].
        intros _. split; [exact Hwf' |]. intros px py _ _. apply Hclean.
    + destruct (on_draw_fresh cfg w h d Hw Hh Hci ltac:(tauto))
        as (d' & -> & [Hi' Hwf'] & _ & _ & Hci' & _ & _ & _ & Hclean).
      exists d'. split; [reflexivity |]. split; [rewrite Hci'; exact Hci |].
      intros _. split; [exact Hwf' |]. intros px py _ _. apply Hclean.
  - (* draw timer *)
    cbn in Hdel. destruct (Hinv Hdel) as [Hwf Hzero].
    destruct (draw_timer_spec d (conj Hdel Hwf))
      as (d' & -> & [Hi' Hwf'] & Hw' & Hh' & Hci' & Hpix).
    exists d'. split; [reflexivity |]. split; [rewrite Hci'; exact Hci |].
    intros _. split; [exact Hwf' |]. intros px py Hin Hst.
    destruct (Hpix px py) as [Hs Ha]. rewrite Ha. apply Hzero.
    + unfold in_bounds in *. rewrite <- Hw', <- Hh'. exact Hin.
    + rewrite <- Hs. exact Hst.
  - (* capture *)
    eexists. split; [reflexivity |].
    destruct (initialized d) eqn:Hinit.
    + destruct (Hinv eq_refl) as [Hwf Hzero].
      destruct (capture_spec cfg screen d (conj Hinit Hwf)) as ([Hi' Hwf'] & _).
      split; [destruct Hwf' as (_ & _ & _ & _ & _ & _ & _ & H); exact H |].
      intros _. split; [exact Hwf' |].
      apply capture_keeps_inv; [split |]; assumption.
    + rewrite capture_uninitialized by exact Hinit. cbn [fst].
      split; [exact Hci |]. rewrite Hinit. discriminate.
  - (* pointer poll *)
    eexists. split; [reflexivity |].
    destruct (initialized d) eqn:Hinit.
    + destruct (Hinv eq_refl) as [Hwf Hzero].
      destruct (poll_spec x y d (conj Hinit Hwf)) as ([Hi' Hwf'] & Hw' & Hh' & _ & Hpix).
      split; [destruct Hwf' as (_ & _ & _ & _ & _ & _ & _ & H); exact H |].
      intros _. split; [exact Hwf' |]. intros px py Hin Hst.
      assert (in_bounds d px py) as Hin0
        by (unfold in_bounds in *; rewrite <- Hw', <- Hh'; exact Hin).
      destruct (Hpix px py Hin0) as (Hs & Ha & _).
      apply Ha. apply Hzero; [exact Hin0 |]. apply Hs. exact Hst.
    + unfold on_mouse_poll_timer. rewrite Hinit. cbn [negb fst].
      split; [exact Hci |]. rewrite Hinit. discriminate.
Qed.

Lemma run_keeps_mask :
  forall es d px py,
    exact_on_disc arc_alpha ->
    active d -> in_bounds d px py -> stale d px py = true ->
    Forall (spares cfg (width d) (height d) px py) es ->
    exists d', run cfg arc_alpha es d = Some d' /\
      active d' /\ width d' = width d /\ height d' = height d /\
      stale d' px py = true.
Proof.
  intros es d px py Hexact. revert d.
  induction es as [| e es IH]; intros d Hact Hin Hst Hall.
  - exists d. repeat split; try assumption; apply Hact.
  - apply Forall_cons in Hall. destruct Hall as [He Hes].
    assert (exists d1, step cfg arc_alpha e d = Some d1 /\ active d1 /\
              width d1 = width d /\ height d1 = height d /\ stale d1 px py = true)
      as (d1 & Hstep & Hact1 & Hw1 & Hh1 & Hst1).
    { destruct e as [w h | | screen | x y]; cbn [step spares] in *.
      - destruct He as [-> ->]. rewrite redraw_same_size by exact Hact.
        exists d. repeat split; try assumption; apply Hact.
      - destruct (draw_timer_spec d Hact) as (d' & -> & Hact' & Hw' & Hh' & _ & Hpix).
        exists d'. cbn. destruct (Hpix px py) as [Hs _]. rewrite Hs. tauto.
      - eexists. split; [reflexivity |].
        destruct (capture_spec cfg screen d Hact) as (Hact' & Hw' & Hh' & _).
        split; [exact Hact' |]. split; [exact Hw' |]. split; [exact Hh' |].
        apply capture_keeps_mask; assumption.
      - eexists. split; [reflexivity |].
        destruct (poll_spec x y d Hact) as (Hact' & Hw' & Hh' & _ & Hpix).
        split; [exact Hact' |]. split; [exact Hw' |]. split; [exact Hh' |].
        destruct (Hpix px py Hin) as (_ & _ & _ & Hnone).
        destruct (Hexact x y (cfg_radius cfg) px py) as [_ Hout].
        destruct (Hnone (Hout He)) as [Hs _]. rewrite Hs. exact Hst. }
    destruct (IH d1 Hact1) as (d' & Hrun & Hact' & Hw' & Hh' & Hst').
    + unfold in_bounds in *. rewrite Hw1, Hh1. exact Hin.
    + exact Hst1.
    + rewrite Hw1, Hh1. exact Hes.
    + exists d'. cbn [run]. rewrite Hstep. rewrite Hw', Hh'. tauto.
Qed.

(** C2: within a session, a mask bit that is set stays set through any
    sequence of capture ticks (and of animation ticks, redraws at the same
    size and pointer polls whose circle leaves the pixel strictly outside);
    a poll that sees the pointer move to a place whose circle contains the
    pixel unsets the bit. *)
Theorem C2_mask_bit_stays_set :
  forall d px py,
    exact_on_disc arc_alpha ->
    active d -> in_bounds d px py -> stale d px py = true ->
    (forall es,
       Forall (spares cfg (width d) (height d) px py) es ->
       exists d', run cfg arc_alpha es d = Some d' /\
         active d' /\ width d' = width d /\ height d' = height d /\
         stale d' px py = true) /\
    (forall x y,
       pointer_x d <> x \/ pointer_y d <> y ->
       inside_circle x y (cfg_radius cfg) px py = true ->
       stale (fst (on_mouse_poll_timer cfg arc_alpha x y d)) px py = false).
Proof.
  intros d px py Hexact Hact Hin Hst. split.
  - intros es Hes. apply run_keeps_mask; assumption.
  - intros x y Hmoved Hins.
    unfold on_mouse_poll_timer. destruct Hact as [Hinit Hwf]. rewrite Hinit. cbn [negb].
    replace ((pointer_x d =? x) && (pointer_y d =? y)) with false
      by (symmetry; apply andb_false_iff; destruct Hmoved; [left | right]; lia).
    cbn [fst].
    destruct (pointer_clear_spec cfg arc_alpha x y d (conj Hinit Hwf))
      as (_ & _ & _ & _ & _ & _ & Hpix).
    destruct (Hpix px py Hin) as [-> _].
    destruct (Hexact x y (cfg_radius cfg) px py) as [Hfull _].
    rewrite clear1_full by (apply Hfull; exact Hins). apply andb_false_r.
Qed.

(** Ages stay below the promotion threshold, so the unsigned char never wraps
    in a running session. *)
Lemma step_keeps_ages_below e d :
  0 < cfg_max_age cfg ->
  active d -> ages_below (cfg_max_age cfg) d -> deliverable e d ->
  exists d', step cfg arc_alpha e d = Some d' /\
    active d' /\ ages_below (cfg_max_age cfg) d'.
Proof.
  intros Hmax Hact Hbelow Hdel.
  destruct e as [w h | | screen | x y]; cbn [step].
  - destruct Hdel as [Hw Hh].
    destruct (Z.eq_dec (width d) w) as [Ew | Ew];
      [destruct (Z.eq_dec (height d) h) as [Eh | Eh] |].
    + subst w h. rewrite redraw_same_size by exact Hact. exists d. tauto.
    + destruct Hact as [_ Hwf]. pose proof Hwf as (_ & _ & _ & _ & _ & _ & _ & Hci).
      destruct (on_draw_fresh cfg w h d Hw Hh Hci ltac:(tauto))
        as (d' & -> & Hact' & _ & _ & _ & _ & _ & _ & Hclean).
      exists d'. split; [reflexivity |]. split; [exact Hact' |].
      intros px py _. destruct (Hclean px py) as [-> _]. lia.
    + destruct Hact as [_ Hwf]. pose proof Hwf as (_ & _ & _ & _ & _ & _ & _ & Hci).
      destruct (on_draw_fresh cfg w h d Hw Hh Hci ltac:(tauto))
        as (d' & -> & Hact' & _ & _ & _ & _ & _ & _ & Hclean).
      exists d'. split; [reflexivity |]. split; [exact Hact' |].
      intros px py _. destruct (Hclean px py) as [-> _]. lia.
  - destruct (draw_timer_spec d Hact) as (d' & -> & Hact' & Hw' & Hh' & _ & Hpix).
    exists d'. split; [reflexivity |]. split; [exact Hact' |].
    intros px py Hin. destruct (Hpix px py) as [_ ->]. apply Hbelow.
    unfold in_bounds in *. rewrite <- Hw', <- Hh'. exact Hin.
  - eexists. split; [reflexivity |].
    destruct (capture_spec cfg screen d Hact) as (Hact' & _).
    split; [exact Hact' |]. apply capture_keeps_ages_below; assumption.
  - eexists. split; [reflexivity |].
    destruct (poll_spec x y d Hact) as (Hact' & Hw' & Hh' & _ & Hpix).
    split; [exact Hact' |]. intros px py Hin.
    assert (in_bounds d px py) as Hin0
      by (unfold in_bounds in *; rewrite <- Hw', <- Hh'; exact Hin).
    destruct (Hpix px py Hin0) as (_ & _ & Hle & _).
    specialize (Hbelow px py Hin0). specialize (Hle ltac:(lia)). lia.
Qed.

End HandlerClaims.

(** ** Sessions from their first draw *)

Lemma on_draw_fresh_captures cfg w h d d' :
  0 < w -> 0 < h ->
  initialized d = false \/ width d <> w \/ height d <> h ->
  on_draw cfg w h d = Some d' ->
  forall x y, previous_pixel d' x y = 0.
Proof.
  intros Hw Hh Hnew. unfold on_draw.
  replace ((w =? 0) || (h =? 0)) with false
    by (symmetry; apply orb_false_iff; split; apply Z.eqb_neq; lia).
  replace (negb (initialized d) || negb (width d =? w) || negb (height d =? h)) with true.
  2: { symmetry. destruct Hnew as [-> | [Hn | Hn]]; [reflexivity | |];
       apply Z.eqb_neq in Hn; rewrite Hn; cbn; rewrite ?orb_true_r; reflexivity. }
  intros [= <-] x y. unfold previous_pixel, get_capture, rgb_get. cbn.
  destruct (1 - capture_index d =? 0); cbn; apply load_repeat_zero.
Qed.

Lemma start_session_spec cfg w h :
  0 < w -> 0 < h ->
  let d := start_session cfg w h in
  active d /\ width d = w /\ height d = h /\ bar_x d = 0 /\
  (forall x y, age d x y = 0 /\ stale d x y = false /\ previous_pixel d x y = 0).
Proof.
  intros Hw Hh d.
  destruct (on_draw_fresh cfg w h initial_data Hw Hh ltac:(left; reflexivity)
              ltac:(left; reflexivity))
    as (d' & Heq & Hact & Hw' & Hh' & _ & _ & _ & Hb & Hclean).
  pose proof (on_draw_fresh_captures cfg w h initial_data d' Hw Hh
                ltac:(left; reflexivity) Heq) as Hprev.
  subst d. unfold start_session. rewrite Heq.
  split; [exact Hact |]. split; [exact Hw' |]. split; [exact Hh' |].
  split; [exact Hb |].
  intros x y. destruct (Hclean x y). auto.
Qed.

Lemma channel_of_zero i : channel i 0 = 0.
Proof. unfold channel. rewrite Zdiv_0_l. reflexivity. Qed.

Lemma channel_nonneg i p : 0 <= channel i p < 256.
Proof. unfold channel. apply Z.mod_pos_bound. lia. Qed.

Lemma same_pixel_unchanged thr p : 0 < thr -> pixel_different thr p p = false.
Proof.
  intros Hthr. apply pixel_different_false. intros i _.
  unfold channel_diff. rewrite Z.sub_diag. cbn. exact Hthr.
Qed.

Lemma dark_pixel_unchanged thr p :
  (forall i, 0 <= i < 3 -> channel i p < thr) -> pixel_different thr p 0 = false.
Proof.
  intros Hdark. apply pixel_different_false. intros i Hi.
  unfold channel_diff. rewrite channel_of_zero, Z.sub_0_r.
  pose proof (channel_nonneg i p). rewrite Z.abs_eq by lia. apply Hdark. exact Hi.
Qed.

Lemma fresh_stale_age_zero d :
  (forall x y, stale d x y = false) -> stale_age_zero d.
Proof. intros Hclean x y _ Hst. rewrite Hclean in Hst. discriminate. Qed.

(** ** The end-to-end scenario *)

(** Three quiet ticks and a fourth, from any state in which nothing is
    masked, every age is 0 and the previous capture is blank. *)
Lemma scenario_from_blank screen screen4 d0 px py qx qy :
  active d0 ->
  (forall x y, age d0 x y = 0 /\ stale d0 x y = false /\ previous_pixel d0 x y = 0) ->
  in_bounds d0 px py -> in_bounds d0 qx qy ->
  (forall i, 0 <= i < 3 -> channel i (u32 (screen px py)) < 2) ->
  (exists i, 0 <= i < 3 /\
     channel_diff i (u32 (screen4 qx qy)) (u32 (screen qx qy)) = 5) ->
  let d3 := feed scenario_config [screen; screen; screen] d0 in
  let d4 := feed scenario_config [screen4] d3 in
  stale d3 px py = true /\ age d3 px py = 0 /\
  age d4 qx qy = 0 /\ stale d4 px py = true.
Proof.
  intros Hact0 Hclean0 Hp0 Hq0 Hdark (i & Hi & Hdiff).
  unfold feed. cbn [fold_left].
  destruct (capture_spec scenario_config screen d0 Hact0)
    as (Hact1 & Hw1 & Hh1 & _ & _ & _ & Hpix1 & Hprev1).
  remember (fst (on_screen_capture_timer scenario_config screen d0)) as d1 eqn:Ed1.
  destruct (capture_spec scenario_config screen d1 Hact1)
    as (Hact2 & Hw2 & Hh2 & _ & _ & _ & Hpix2 & Hprev2).
  remember (fst (on_screen_capture_timer scenario_config screen d1)) as d2 eqn:Ed2.
  destruct (capture_spec scenario_config screen d2 Hact2)
    as (Hact3 & Hw3 & Hh3 & _ & _ & _ & Hpix3 & Hprev3).
  remember (fst (on_screen_capture_timer scenario_config screen d2)) as d3 eqn:Ed3.
  assert (forall x y, in_bounds d0 x y ->
            in_bounds d1 x y /\ in_bounds d2 x y /\ in_bounds d3 x y) as Hin.
  { intros x y Hxy. unfold in_bounds in *.
    rewrite Hw3, Hh3, Hw2, Hh2, Hw1, Hh1. tauto. }
  destruct (Hin px py Hp0) as (Hp1 & Hp2 & Hp3).
  destruct (Hin qx qy Hq0) as (Hq1 & Hq2 & Hq3).
  destruct (Hclean0 px py) as (Ha0 & Hs0 & Hv0).
  (* first tick: against the blank buffer *)
  specialize (Hpix1 px py Hp0). rewrite Hs0, Ha0, Hv0 in Hpix1.
  unfold pixel_step in Hpix1. cbn [scenario_config cfg_threshold cfg_max_age] in Hpix1.
  rewrite dark_pixel_unchanged in Hpix1 by exact Hdark.
  change (u8 (0 + 1)) with 1 in Hpix1. change (1 >=? 3) with false in Hpix1.
  apply pair_equal_spec in Hpix1. destruct Hpix1 as [Hs1 Ha1].
  (* second tick *)
  specialize (Hpix2 px py Hp1). rewrite Hs1, Ha1, (Hprev1 px py Hp0) in Hpix2.
  unfold pixel_step in Hpix2. cbn [scenario_config cfg_threshold cfg_max_age] in Hpix2.
  rewrite same_pixel_unchanged in Hpix2 by lia.
  change (u8 (1 + 1)) with 2 in Hpix2. change (2 >=? 3) with false in Hpix2.
  apply pair_equal_spec in Hpix2. destruct Hpix2 as [Hs2 Ha2].
  (* third tick *)
  specialize (Hpix3 px py Hp2). rewrite Hs2, Ha2, (Hprev2 px py Hp1) in Hpix3.
  unfold pixel_step in Hpix3. cbn [scenario_config cfg_threshold cfg_max_age] in Hpix3.
  rewrite same_pixel_unchanged in Hpix3 by lia.
  change (u8 (2 + 1)) with 3 in Hpix3. change (3 >=? 3) with true in Hpix3.
  apply pair_equal_spec in Hpix3. destruct Hpix3 as [Hs3 Ha3].
  split; [exact Hs3 |]. split; [exact Ha3 |].
  (* fourth tick *)
  split.
  - apply capture_resets_changed; [exact Hact3 | | exact Hq3 |].
    + rewrite Ed3. apply capture_keeps_inv; [exact Hact2 |].
      rewrite Ed2. apply capture_keeps_inv; [exact Hact1 |].
      rewrite Ed1. apply capture_keeps_inv; [exact Hact0 |].
      apply fresh_stale_age_zero. intros x y. apply Hclean0.
    + exists i. split; [exact Hi |]. rewrite (Hprev3 qx qy Hq2).
      cbn [scenario_config cfg_threshold]. lia.
  - apply capture_keeps_mask; assumption.
Qed.

(** C5, as the program has it: with W=100, H=10, threshold 2 and max age 3,
    feed a fresh session 3 identical captures in which a given pixel is
    darker than the threshold in every colour component, so that the first
    tick, which diffs against the zero-filled buffer, also sees no change:
    after the 3rd tick the pixel's mask bit is set and its age is 0.  After a
    4th capture that differs by 5 in one component at a second pixel, the
    second pixel's age is 0 and the first pixel's mask bit is still set. *)
Theorem C5_scenario_dark_pixel :
  forall screen screen4 px py qx qy,
    0 <= px < 100 -> 0 <= py < 10 -> 0 <= qx < 100 -> 0 <= qy < 10 ->
    (forall i, 0 <= i < 3 -> channel i (u32 (screen px py)) < 2) ->
    (exists i, 0 <= i < 3 /\
       channel_diff i (u32 (screen4 qx qy)) (u32 (screen qx qy)) = 5) ->
    let d3 := feed scenario_config [screen; screen; screen]
                (start_session scenario_config 100 10) in
    let d4 := feed scenario_config [screen4] d3 in
    stale d3 px py = true /\ age d3 px py = 0 /\
    age d4 qx qy = 0 /\ stale d4 px py = true.
Proof.
  intros screen screen4 px py qx qy Hpx Hpy Hqx Hqy Hdark Hdiff.
  destruct (start_session_spec scenario_config 100 10 ltac:(lia) ltac:(lia))
    as (Hact0 & Hw0 & Hh0 & _ & Hclean0).
  apply scenario_from_blank; try assumption.
  - unfold in_bounds. rewrite Hw0, Hh0. tauto.
  - unfold in_bounds. rewrite Hw0, Hh0. tauto.
Qed.

(** The scenario as the specification words it fails on a bright screen: the
    first of three identical white captures differs from the zero-filled
    buffer, so after the 3rd tick the pixel has age 2 and is not masked. *)
Lemma C5_counterexample :
  let d3 := feed scenario_config [solid white; solid white; solid white]
              (start_session scenario_config 100 10) in
  stale d3 0 0 = false /\ age d3 0 0 = 2 /\
  ~ (stale d3 0 0 = true /\ age d3 0 0 = 0).
Proof.
  vm_compute. split; [reflexivity |]. split; [reflexivity |].
  intros [H _]. discriminate H.
Qed.

(** ** Resizing *)

Section Resize.

Variable cfg : config.

(** C6, as the program has it: when the widget's size changes while the
    session is active, the session is set up afresh at the new size, with
    every age 0 and every mask bit unset, and the bar position becomes
    [old_pos * new_width / old_width] with the quotient rounded down (in
    unsigned 32-bit arithmetic, which the product does not overflow here). *)
Theorem C6_resize_resets_and_rescales :
  forall d w h,
    active d -> 0 < w < 2 ^ 31 -> 0 < h ->
    w <> width d \/ h <> height d ->
    width d < 2 ^ 31 -> 0 <= bar_x d -> bar_x d * w < 2 ^ 32 ->
    exists d', on_draw cfg w h d = Some d' /\
      active d' /\ width d' = w /\ height d' = h /\
      (forall x y, in_bounds d' x y -> age d' x y = 0 /\ stale d' x y = false) /\
      bar_x d' = bar_x d * w / width d.
Proof.
  intros d w h [Hinit Hwf] Hw Hh Hnew Hwd Hb Hbw.
  pose proof Hwf as (Hw0 & _ & _ & _ & _ & _ & _ & Hci).
  destruct (on_draw_fresh cfg w h d ltac:(lia) Hh Hci ltac:(right; lia))
    as (d' & Heq & Hact & Hw' & Hh' & _ & _ & _ & Hbar & Hclean).
  exists d'. split; [exact Heq |]. split; [exact Hact |].
  split; [exact Hw' |]. split; [exact Hh' |]. split.
  - intros x y _. apply Hclean.
  - rewrite Hbar, Hinit. unfold u32.
    rewrite (Z.mod_small w), (Z.mod_small (width d)), (Z.mod_small (bar_x d * w)) by lia.
    reflexivity.
Qed.

End Resize.

(** The bar position is not rounded to nearest: at width 192 with the bar at
    10, a resize to width 128 puts the bar at 6, while 10 * 128 / 192 = 6.67
    rounds to 7. *)
Lemma C6_counterexample :
  bar_x wide_session = 10 /\ width wide_session = 192 /\
  option_map bar_x (on_draw default_config 128 72 wide_session) = Some 6 /\
  option_map bar_x (on_draw default_config 128 72 wide_session)
  <> Some (round_div (bar_x wide_session * 128) (width wide_session)).
Proof.
  vm_compute. repeat split; try reflexivity. intros H. discriminate H.
Qed.

(** ** The theorems at concrete inputs *)

Ltac evaluate :=
  vm_compute;
  repeat match goal with
         | |- _ /\ _ => split
         | |- _ = _ => reflexivity
         | |- _ = _ -> False => intros ?; discriminate
         | |- _ \/ _ => left; reflexivity
         | |- _ \/ _ => right; reflexivity
         end.

Lemma demo_session_clean : stale_age_zero demo_session.
Proof.
  apply fresh_stale_age_zero. intros x y.
  apply (start_session_spec default_config 4 2); lia.
Qed.

Lemma C1_witness :
  let d' := fst (on_screen_capture_timer default_config (solid 0) demo_session) in
  (age demo_session 0 0 + 1 < cfg_max_age default_config ->
     age d' 0 0 = age demo_session 0 0 + 1 /\ stale d' 0 0 = false) /\
  (cfg_max_age default_config <= age demo_session 0 0 + 1 ->
     stale d' 0 0 = true /\ age d' 0 0 = 0).
Proof.
  apply (C1_unchanged_pixel_ages_by_one default_config (solid 0) demo_session 0 0);
    evaluate.
Defined.

Lemma aged_session_clean : stale_age_zero aged_session.
Proof.
  unfold aged_session, feed. cbn [fold_left].
  apply capture_keeps_inv; [evaluate |].
  apply capture_keeps_inv; [evaluate |].
  apply fresh_stale_age_zero. intros x y.
  apply (start_session_spec scenario_config 4 2); lia.
Qed.

Lemma masked_session_clean : stale_age_zero masked_session.
Proof.
  unfold masked_session, feed. cbn [fold_left].
  apply capture_keeps_inv; [evaluate |].
  apply capture_keeps_inv; [evaluate |].
  apply capture_keeps_inv; [evaluate |].
  apply fresh_stale_age_zero. intros x y.
  apply (start_session_spec scenario_config 4 2); lia.
Qed.

(** A pixel of age 2 that turns from black to white. *)
Lemma C4_witness :
  age aged_session 0 0 = 2 /\ stale aged_session 0 0 = false /\
  let d' := fst (on_screen_capture_timer scenario_config (solid white) aged_session) in
  active d' /\ width d' = width aged_session /\ height d' = height aged_session /\
  in_bounds d' 0 0 /\
  age d' 0 0 = 0.
Proof.
  split; [reflexivity |]. split; [reflexivity |].
  apply (C4_changed_pixel_has_age_zero scenario_config (solid white) aged_session 0 0).
  - evaluate.
  - exact aged_session_clean.
  - evaluate.
  - exists 0. evaluate.
Defined.

Lemma C2_witness :
  stale masked_session 1 1 = true /\
  exists d',
    run scenario_config ideal_alpha
      [ScreenCapture (solid white); MousePoll 500 500; DrawTimer; Draw 4 2;
       ScreenCapture (solid 0)] masked_session = Some d' /\
    active d' /\ width d' = width masked_session /\ height d' = height masked_session /\
    stale d' 1 1 = true.
Proof.
  split; [reflexivity |].
  apply (C2_mask_bit_stays_set scenario_config ideal_alpha masked_session 1 1).
  - exact ideal_alpha_exact.
  - evaluate.
  - evaluate.
  - reflexivity.
  - repeat constructor.
Defined.

Lemma C5_witness :
  let screen4 := screen_with (solid 0) 7 3 5 in
  let d3 := feed scenario_config [solid 0; solid 0; solid 0]
              (start_session scenario_config 100 10) in
  let d4 := feed scenario_config [screen4] d3 in
  stale d3 0 0 = true /\ age d3 0 0 = 0 /\ age d4 7 3 = 0 /\ stale d4 0 0 = true.
Proof.
  apply (C5_scenario_dark_pixel (solid 0) (screen_with (solid 0) 7 3 5) 0 0 7 3);
    try lia.
  - intros i Hi. change (u32 (solid 0 0 0)) with 0. rewrite channel_of_zero. lia.
  - exists 0. evaluate.
Defined.

Lemma C6_witness :
  exists d', on_draw default_config 128 72 wide_session = Some d' /\
    active d' /\ width d' = 128 /\ height d' = 72 /\
    (forall x y, in_bounds d' x y -> age d' x y = 0 /\ stale d' x y = false) /\
    bar_x d' = bar_x wide_session * 128 / width wide_session.
Proof.
  apply (C6_resize_resets_and_rescales default_config wide_session 128 72);
    try solve [evaluate]; try lia.
  left. evaluate.
Defined.

Lemma C7_witness :
  exists d', on_draw_timer default_config demo_session = Some (d', true) /\
    bar_x d' = (bar_x demo_session + cfg_increment default_config) mod width demo_session /\
    0 <= bar_x d' < width demo_session.
Proof.
  apply (C7_bar_position_wraps default_config demo_session); evaluate.
Defined.

Lemma C8_witness :
  inside_circle 1 1 (cfg_radius default_config) 3 1 = true /\
  let once := pointer_clear default_config ideal_alpha 1 1 masked_session in
  let twice := pointer_clear default_config ideal_alpha 1 1 once in
  stale masked_session 3 1 = true /\
  (age once 3 1 = 0 /\ stale once 3 1 = false) /\
  (age twice 3 1 = 0 /\ stale twice 3 1 = false).
Proof.
  split; [reflexivity |]. intros once twice. split; [reflexivity |].
  apply (C8_pointer_clear_idempotent default_config ideal_alpha 1 1 masked_session
           ideal_alpha_exact ltac:(evaluate)); evaluate.
Defined.

Lemma masked_session_inv : session_inv masked_session.
Proof.
  split; [evaluate |]. intros _. split; [evaluate | exact masked_session_clean].
Qed.

(** A session all of whose pixels are masked, taken through a capture tick
    that changes every pixel, a pointer poll that clears around (1, 1), an
    animation tick and a resize. *)
Lemma C9_witness :
  initialized masked_session = true /\
  stale masked_session 1 1 = true /\ age masked_session 1 1 = 0 /\
  (exists d', step scenario_config ideal_alpha (ScreenCapture (solid white))
                masked_session = Some d' /\ session_inv d') /\
  (exists d', step scenario_config ideal_alpha (MousePoll 1 1)
                masked_session = Some d' /\ session_inv d') /\
  (exists d', step scenario_config ideal_alpha DrawTimer
                masked_session = Some d' /\ session_inv d') /\
  (exists d', step scenario_config ideal_alpha (Draw 5 3)
                masked_session = Some d' /\ session_inv d').
Proof.
  split; [reflexivity |]. split; [reflexivity |]. split; [reflexivity |].
  split; [| split; [| split]].
  - apply (C9_masked_pixels_have_age_zero scenario_config ideal_alpha
             (ScreenCapture (solid white)) masked_session);
      [exact masked_session_inv | exact I].
  - apply (C9_masked_pixels_have_age_zero scenario_config ideal_alpha
             (MousePoll 1 1) masked_session);
      [exact masked_session_inv | exact I].
  - apply (C9_masked_pixels_have_age_zero scenario_config ideal_alpha
             DrawTimer masked_session);
      [exact masked_session_inv | reflexivity].
  - apply (C9_masked_pixels_have_age_zero scenario_config ideal_alpha
             (Draw 5 3) masked_session);
      [exact masked_session_inv | evaluate].
Defined.

Lemma C10_witness :
  on_screen_capture_timer default_config (solid white) initial_data = (initial_data, true) /\
  on_mouse_poll_timer default_config ideal_alpha 5 5 initial_data = (initial_data, true).
Proof.
  apply (C10_handlers_idle_before_first_draw default_config ideal_alpha (solid white) 5 5
           initial_data).
  reflexivity.
Defined.

(** ** The [mask_changed] flag *)

Section DiffFlag.

Variable cfg : config.
Variables (w h ms as_ cs ls : Z).
Variables (current last : list Z).
Variables (nm na : nat).

Hypothesis mask_row : (w + 7) / 8 <= ms.
Hypothesis ages_row : w <= as_.
Hypothesis current_stride : 0 <= cs.
Hypothesis last_stride : 0 <= ls.
Hypothesis mask_size : Z.of_nat nm = ms * h.
Hypothesis ages_size : Z.of_nat na = as_ * h.

(** One round of the loop either leaves the flag and the mask alone or
    raises the flag while setting a bit that was clear. *)
Lemma diff_pixel_flag x y st :
  0 <= x < w -> 0 <= y < h -> diff_inv ms as_ cs ls nm na y st ->
  (ds_changed (diff_pixel cfg current last x st) = ds_changed st /\
   ds_mask (diff_pixel cfg current last x st) = ds_mask st) \/
  (ds_changed (diff_pixel cfg current last x st) = true /\
   mask_bit ms (ds_mask st) x y = false /\
   mask_bit ms (ds_mask (diff_pixel cfg current last x st)) x y = true).
Proof.
  intros Hx Hy (Hmo & Hao & Hco & Hlo & Hlm & Hla).
  pose proof (a1_index_bounds ms w h x y mask_row Hx Hy) as Hi.
  assert (0 <= x mod 8 < 8) as Hk by (apply Z.mod_pos_bound; lia).
  unfold diff_pixel, mask_bit, cell_index. rewrite Hmo.
  rewrite (quot_nonneg x 8), (rem_nonneg x 8) by lia.
  rewrite mask_test by lia. rewrite negb_involutive.
  destruct (Z.testbit (load (ds_mask st) (y * ms + x / 8)) (x mod 8)) eqn:Eb.
  { left. split; reflexivity. }
  destruct (pixel_different (cfg_threshold cfg) _ _); cbn [negb];
    [left; split; reflexivity |].
  destruct (_ >=? cfg_max_age cfg); [| left; split; reflexivity].
  right. cbn [ds_changed ds_mask].
  split; [reflexivity |]. split; [reflexivity |].
  rewrite load_store_eq by lia. rewrite testbit_set by lia.
  rewrite Z.eqb_refl. apply orb_true_r.
Qed.

Lemma diff_loop_flag m0 a0 :
  0 <= w -> 0 <= h -> length m0 = nm -> length a0 = na ->
  diff_flag_inv w h ms m0
    (for_range 0 h (diff_row cfg w ms as_ cs ls current last)
       (mk_diff m0 a0 false 0 0 0 0)).
Proof.
  intros Hw Hh Hm Ha.
  destruct (pixel_loop w h (diff_view ms as_) (diff_step cfg cs ls current last)
              (fun y st => diff_inv ms as_ cs ls nm na y st /\ diff_flag_inv w h ms m0 st)
              (fun _ x => diff_pixel cfg current last x)
              (fun _ t => mk_diff (ds_mask t) (ds_ages t) (ds_changed t)
                            (ds_mask_off t + ms) (ds_ages_off t + as_)
                            (ds_current_off t + cs) (ds_last_off t + ls)))
    with (s0 := mk_diff m0 a0 false 0 0 0 0) as [[_ HI] _].
  - intros x y t Hx Hy [Ht (Hclean & Hraised & Hmono)].
    destruct (diff_pixel_ok cfg w h ms as_ cs ls current last nm na
                mask_row ages_row current_stride last_stride mask_size ages_size
                x y t Hx Hy Ht) as (Hinv' & Hself & Hother).
    split; [| split; [exact Hself | exact Hother]].
    split; [exact Hinv' |].
    assert (forall x' y', 0 <= x' < w -> 0 <= y' < h ->
              mask_bit ms (ds_mask t) x' y' = true ->
              mask_bit ms (ds_mask (diff_pixel cfg current last x t)) x' y' = true)
      as Hkeep.
    { intros x' y' Hx' Hy' Hb.
      destruct (Z.eq_dec x' x) as [-> | Hnx]; [destruct (Z.eq_dec y' y) as [-> | Hny] |].
      - pose proof (f_equal fst Hself) as Hf. unfold diff_view, diff_step in Hf.
        cbn [fst] in Hf. unfold mask_bit in *. rewrite Hf, Hb. reflexivity.
      - pose proof (f_equal fst (Hother x y' Hx' Hy' ltac:(right; exact Hny))) as Hf.
        unfold diff_view in Hf. cbn [fst] in Hf. unfold mask_bit. rewrite Hf. exact Hb.
      - pose proof (f_equal fst (Hother x' y' Hx' Hy' ltac:(left; exact Hnx))) as Hf.
        unfold diff_view in Hf. cbn [fst] in Hf. unfold mask_bit. rewrite Hf. exact Hb. }
    destruct (diff_pixel_flag x y t Hx Hy Ht) as [[Hc Hmk] | (Hc & Hb0 & Hb1)];
      unfold diff_flag_inv.
    + rewrite Hc, Hmk. split; [exact Hclean |]. split; [exact Hraised | exact Hmono].
    + split; [rewrite Hc; discriminate |]. split.
      * intros _. exists x, y. split; [exact Hx |]. split; [exact Hy |].
        split; [exact Hb1 |].
        destruct (mask_bit ms m0 x y) eqn:E0; [| reflexivity].
        rewrite (Hmono x y Hx Hy E0) in Hb0. discriminate.
      * intros x' y' Hx' Hy' E0. apply Hkeep; auto.
  - intros y t Hy [(Hmo & Hao & Hco & Hlo & Hlm & Hla) Hflag].
    split; [| reflexivity]. split; [| exact Hflag].
    unfold diff_inv. cbn. rewrite Hmo, Hao, Hco, Hlo. repeat split; try lia.
  - exact Hw.
  - exact Hh.
  - split.
    + unfold diff_inv. cbn. repeat split; try lia.
    + unfold diff_flag_inv. cbn [ds_changed ds_mask].
      split; [reflexivity |]. split; [discriminate |]. auto.
  - exact HI.
Qed.

End DiffFlag.

(** ** Uploading the mask *)

Lemma with_data_same s : with_data s (img_data s) = s.
Proof. destruct s. reflexivity. Qed.

Lemma paint_mask_ok src w h s :
  0 <= w -> 0 <= h -> wf_image FORMAT_A8 w h s ->
  img_width src = w -> img_height src = h ->
  forall x y, 0 <= x < w -> 0 <= y < h ->
    a8_get (paint_mask src s) x y = if a1_get src x y then 255 else 0.
Proof.
  intros Hw Hh Hwf Hsw Hsh x y Hx Hy.
  pose proof Hwf as (Hf & Hdw & Hdh & _).
  destruct (wf_image_a8 w h s Hwf) as (Hrow & Hlen).
  destruct (for_pixels_cells s (cell_index FORMAT_A8 (img_stride s))
              (fun x y _ => if (x <? img_width src) && (y <? img_height src)
                                 && a1_get src x y then 255 else 0)) as [_ Hv].
  - lia.
  - lia.
  - intros x' y' Hx' Hy'. cbn [cell_index]. rewrite Hlen.
    apply (a8_index_bounds _ w); lia.
  - intros x1 y1 x2 y2 Hx1 Hy1 Hx2 Hy2 E. cbn [cell_index] in E.
    apply (a8_index_inj _ w) in E; lia.
  - unfold a8_get, paint_mask. cbn [for_pixels with_data img_data img_stride] in *.
    rewrite Hv by lia.
    replace (x <? img_width src) with true by lia.
    replace (y <? img_height src) with true by lia. reflexivity.
Qed.

Section Upload.

Variable cfg : config.

(** A capture tick either leaves both copies of the mask alone, or it has
    masked a pixel that was not masked and has uploaded the whole mask. *)
Lemma capture_upload screen d :
  active d ->
  let d' := fst (on_screen_capture_timer cfg screen d) in
  (mask d' = mask d /\ mask_image d' = mask_image d) \/
  ((exists x y, in_bounds d x y /\ stale d x y = false /\ stale d' x y = true) /\
   (forall x y, in_bounds d x y -> synced_at d' x y)).
Proof.
  intros [Hinit Hwf] d'.
  pose proof Hwf as (Hw & Hh & Hmask & Hmi & Hpa & Hc0 & Hc1 & Hci).
  pose proof (get_capture_wf d (capture_index d) Hwf) as Hcur.
  pose proof (get_capture_wf d (1 - capture_index d) Hwf) as Hlast.
  destruct (paint_window_ok screen (width d) (height d) _ ltac:(lia) ltac:(lia) Hcur)
    as (Hpw & Hps & Hpv).
  destruct (wf_image_a1 _ _ _ Hmi) as (Hmrow & Hmlen).
  destruct (wf_image_a8 _ _ _ Hpa) as (Harow & Halen).
  destruct (wf_image_rgb _ _ _ Hcur) as (Hcrow & _ & _).
  destruct (wf_image_rgb _ _ _ Hlast) as (Hlrow & _ & _).
  pose proof (diff_loop_flag cfg (width d) (height d)
              (img_stride (mask_image d)) (img_stride (pixel_ages d))
              (img_stride (paint_window screen (get_capture d (capture_index d))))
              (img_stride (get_capture d (1 - capture_index d)))
              (img_data (paint_window screen (get_capture d (capture_index d))))
              (img_data (get_capture d (1 - capture_index d)))
              (length (img_data (mask_image d))) (length (img_data (pixel_ages d)))
              Hmrow Harow
              ltac:(rewrite Hps; Z.div_mod_to_equations; lia)
              ltac:(Z.div_mod_to_equations; lia)
              Hmlen Halen
              (img_data (mask_image d)) (img_data (pixel_ages d))
              ltac:(lia) ltac:(lia) eq_refl eq_refl)
    as (Hclean & Hraised & _).
  destruct (diff_loop_ok cfg (width d) (height d)
              (img_stride (mask_image d)) (img_stride (pixel_ages d))
              (img_stride (paint_window screen (get_capture d (capture_index d))))
              (img_stride (get_capture d (1 - capture_index d)))
              (img_data (paint_window screen (get_capture d (capture_index d))))
              (img_data (get_capture d (1 - capture_index d)))
              (length (img_data (mask_image d))) (length (img_data (pixel_ages d)))
              Hmrow Harow
              ltac:(rewrite Hps; Z.div_mod_to_equations; lia)
              ltac:(Z.div_mod_to_equations; lia)
              Hmlen Halen
              (img_data (mask_image d)) (img_data (pixel_ages d))
              ltac:(lia) ltac:(lia) eq_refl eq_refl)
    as (Hlm & _ & _).
  subst d'. unfold on_screen_capture_timer. rewrite Hinit. cbn [negb fst].
  match goal with
  | |- context [for_range 0 (height d) ?row ?st0] =>
      set (st := for_range 0 (height d) row st0) in *
  end.
  cbn [mask mask_image].
  destruct (ds_changed st) eqn:Ech.
  - right. destruct (Hraised eq_refl) as (x & y & Hx & Hy & Hb1 & Hb0). split.
    + exists x, y. split; [split; assumption |]. split; [exact Hb0 | exact Hb1].
    + intros px py [Hpx Hpy]. unfold synced_at, render_alpha, stale.
      cbn [mask mask_image].
      apply (paint_mask_ok _ (width d) (height d)); try lia; try assumption.
      * apply Hmi.
      * apply Hmi.
  - left. split; [reflexivity |]. rewrite (Hclean eq_refl). apply with_data_same.
Qed.

End Upload.

(** ** More about the capture handler *)

Section CaptureMore.

Variable cfg : config.

(** X1: a capture tick treats every pixel on its own: the new mask bit and age
    of a pixel are those of the loop body applied to the pixel's old mask bit
    and age, the colour just captured and the colour of the previous capture
    (no neighbour, not even one sharing its mask byte, has any influence). *)
Theorem capture_tick_is_pixelwise :
  forall screen d x y,
    active d -> in_bounds d x y ->
    let d' := fst (on_screen_capture_timer cfg screen d) in
    (stale d' x y, age d' x y)
    = pixel_step cfg (stale d x y) (age d x y) (u32 (screen x y)) (previous_pixel d x y).
Proof.
  intros screen d x y Hact Hin.
  destruct (capture_spec cfg screen d Hact) as (_ & _ & _ & _ & _ & _ & Hpix & _).
  apply Hpix. exact Hin.
Qed.

Lemma capture_index_toggles screen d :
  initialized d = true ->
  capture_index (fst (on_screen_capture_timer cfg screen d)) = 1 - capture_index d.
Proof. intros Hinit. unfold on_screen_capture_timer. rewrite Hinit. reflexivity. Qed.

(** X2: the two capture buffers swap roles on every tick: the capture index
    toggles between 0 and 1 (and is back after two ticks), the buffer that
    held the previous capture is left untouched, and the buffer just painted
    holds the screen and is what the next tick diffs against. *)
Theorem capture_swaps_buffers :
  forall screen d,
    active d ->
    let d' := fst (on_screen_capture_timer cfg screen d) in
    capture_index d' = 1 - capture_index d /\
    get_capture d' (capture_index d') = get_capture d (capture_index d') /\
    (forall x y, in_bounds d x y ->
       rgb_get (get_capture d' (capture_index d)) x y = u32 (screen x y)) /\
    capture_index (fst (on_screen_capture_timer cfg screen d')) = capture_index d.
Proof.
  intros screen d Hact d'.
  destruct (capture_spec cfg screen d Hact) as (Hact' & _ & _ & _ & _ & _ & _ & Hprev).
  pose proof Hact as [Hinit (_ & _ & _ & _ & _ & _ & _ & Hci)].
  pose proof Hact' as [Hinit' _].
  assert (capture_index d' = 1 - capture_index d) as Hidx
    by (apply capture_index_toggles; exact Hinit).
  split; [exact Hidx |]. split; [| split].
  - rewrite Hidx. subst d'. unfold on_screen_capture_timer. rewrite Hinit.
    cbn [negb fst]. unfold get_capture, set_capture. cbn [captures].
    destruct Hci as [E | E]; rewrite E; reflexivity.
  - intros x y Hin. specialize (Hprev x y Hin). fold d' in Hprev.
    unfold previous_pixel in Hprev. rewrite Hidx in Hprev.
    replace (1 - (1 - capture_index d)) with (capture_index d) in Hprev by lia.
    exact Hprev.
  - rewrite capture_index_toggles by exact Hinit'. rewrite Hidx. lia.
Qed.

(** X3: a capture tick that masks no new pixel leaves both copies of the mask
    exactly as they were (no upload, not a byte of the A1 data rewritten). *)
Theorem capture_uploads_only_on_promotion :
  forall screen d,
    active d ->
    let d' := fst (on_screen_capture_timer cfg screen d) in
    (forall x y, in_bounds d x y -> stale d x y = false -> stale d' x y = false) ->
    mask d' = mask d /\ mask_image d' = mask_image d.
Proof.
  intros screen d Hact d' Hnone.
  destruct (capture_upload cfg screen d Hact) as [Hsame | [(x & y & Hin & H0 & H1) _]].
  - exact Hsame.
  - fold d' in H1. rewrite (Hnone x y Hin H0) in H1. discriminate.
Qed.

(** X4: when the render-side copy of the mask agrees with the mask bits before
    a capture tick, it agrees with them after it. *)
Theorem capture_keeps_mask_synced :
  forall screen d,
    active d -> mask_synced d ->
    mask_synced (fst (on_screen_capture_timer cfg screen d)).
Proof.
  intros screen d Hact Hsync.
  destruct (capture_spec cfg screen d Hact) as (_ & Hw & Hh & _).
  intros x y Hin.
  assert (in_bounds d x y) as Hin0
    by (unfold in_bounds in *; rewrite <- Hw, <- Hh; exact Hin).
  destruct (capture_upload cfg screen d Hact) as [[Hm Hmi] | [_ Hup]].
  - unfold synced_at, render_alpha, stale. rewrite Hm, Hmi. apply Hsync. exact Hin0.
  - apply Hup. exact Hin0.
Qed.

(** X5: a mask bit is set by a capture tick only for a pixel that was
    classified unchanged and whose incremented age reached the maximum age;
    the pixel's age is then 0. *)
Theorem promotion_needs_unchanged :
  forall screen d x y,
    active d -> in_bounds d x y ->
    let d' := fst (on_screen_capture_timer cfg screen d) in
    stale d x y = false -> stale d' x y = true ->
    pixel_different (cfg_threshold cfg) (u32 (screen x y)) (previous_pixel d x y) = false /\
    cfg_max_age cfg <= u8 (age d x y + 1) /\
    age d' x y = 0.
Proof.
  intros screen d x y Hact Hin d' H0 H1.
  destruct (capture_spec cfg screen d Hact) as (_ & _ & _ & _ & _ & _ & Hpix & _).
  specialize (Hpix x y Hin). fold d' in Hpix. unfold pixel_step in Hpix.
  rewrite H0, H1 in Hpix.
  destruct (pixel_different _ _ _); [discriminate Hpix |].
  destruct (u8 (age d x y + 1) >=? cfg_max_age cfg) eqn:E; [| discriminate Hpix].
  apply pair_equal_spec in Hpix. destruct Hpix as [_ Ha].
  split; [reflexivity |]. split; [lia | exact Ha].
Qed.

Lemma feed_cons screen screens d :
  feed cfg (screen :: screens) d
  = feed cfg screens (fst (on_screen_capture_timer cfg screen d)).
Proof. reflexivity. Qed.

(** A pixel that shows one colour on every capture. *)
Lemma steady_pixel screens :
  forall d x y c,
    active d -> in_bounds d x y -> stale d x y = false ->
    0 < cfg_threshold cfg -> cfg_max_age cfg <= 255 ->
    0 <= age d x y ->
    (forall s, In s screens -> u32 (s x y) = c) ->
    pixel_different (cfg_threshold cfg) c (previous_pixel d x y) = false ->
    let n := Z.of_nat (length screens) in
    let d' := feed cfg screens d in
    (age d x y + n < cfg_max_age cfg ->
       stale d' x y = false /\ age d' x y = age d x y + n) /\
    (0 < n -> age d x y + n = cfg_max_age cfg ->
       stale d' x y = true /\ age d' x y = 0).
Proof.
  induction screens as [| s screens IH]; intros d x y c Hact Hin Hst Hthr Hmax Hage Hcol Hsame n d'.
  - subst n d'. cbn. split; [intros _; split; [exact Hst | lia] | lia].
  - subst d'. rewrite feed_cons.
    destruct (capture_spec cfg s d Hact) as (Hact1 & Hw1 & Hh1 & _ & _ & _ & Hpix & Hprev).
    remember (fst (on_screen_capture_timer cfg s d)) as d1 eqn:Ed1.
    assert (u32 (s x y) = c) as Hc by (apply Hcol; left; reflexivity).
    specialize (Hpix x y Hin). specialize (Hprev x y Hin).
    unfold pixel_step in Hpix. rewrite Hst, Hc, Hsame in Hpix.
    assert (in_bounds d1 x y) as Hin1
      by (unfold in_bounds in *; rewrite Hw1, Hh1; exact Hin).
    assert (n = 1 + Z.of_nat (length screens)) as Hn
      by (subst n; cbn [length]; lia).
    destruct (Z.lt_ge_cases (age d x y + 1) (cfg_max_age cfg)) as [Hlt | Hge].
    + assert (u8 (age d x y + 1) = age d x y + 1) as Hu8
        by (unfold u8; apply Z.mod_small; lia).
      rewrite Hu8 in Hpix.
      replace (age d x y + 1 >=? cfg_max_age cfg) with false in Hpix by lia.
      apply pair_equal_spec in Hpix. destruct Hpix as [Hs1 Ha1].
      destruct (IH d1 x y c Hact1 Hin1 Hs1 Hthr Hmax ltac:(lia)
                  ltac:(intros s' Hs'; apply Hcol; right; exact Hs')
                  ltac:(rewrite Hprev, Hc; apply same_pixel_unchanged; exact Hthr))
        as [IHlt IHeq].
      rewrite Ha1 in IHlt, IHeq. split.
      * intros Hb. destruct (IHlt ltac:(lia)) as [-> ->]. split; [reflexivity | lia].
      * intros _ Hb. apply IHeq; lia.
    + split; [intros Hb; lia |]. intros _ Hb.
      assert (screens = []) as -> by (destruct screens; [reflexivity | cbn [length] in Hn; lia]).
      cbn [feed fold_left].
      assert (u8 (age d x y + 1) = age d x y + 1) as Hu8
        by (unfold u8; apply Z.mod_small; lia).
      rewrite Hu8 in Hpix.
      replace (age d x y + 1 >=? cfg_max_age cfg) with true in Hpix by lia.
      apply pair_equal_spec in Hpix. exact Hpix.
Qed.

(** X6: a pixel that is not masked and shows one colour on every capture,
    unchanged from the previous capture, ages by one per tick: after n ticks
    with age + n below the maximum age it is still unmasked with age + n, and
    at the tick where age + n equals the maximum age it is masked with age 0. *)
Theorem steady_pixel_is_promoted_on_time :
  forall screens d x y c,
    active d -> in_bounds d x y -> stale d x y = false ->
    0 < cfg_threshold cfg -> cfg_max_age cfg <= 255 ->
    0 <= age d x y ->
    (forall s, In s screens -> u32 (s x y) = c) ->
    pixel_different (cfg_threshold cfg) c (previous_pixel d x y) = false ->
    let n := Z.of_nat (length screens) in
    let d' := feed cfg screens d in
    (age d x y + n < cfg_max_age cfg ->
       stale d' x y = false /\ age d' x y = age d x y + n) /\
    (0 < n -> age d x y + n = cfg_max_age cfg ->
       stale d' x y = true /\ age d' x y = 0).
Proof.
  intros screens d x y c. apply steady_pixel.
Qed.

End CaptureMore.

(** ** More about the classification *)

Lemma channel_low_bits i p : 0 <= i < 3 -> channel i (p mod 2 ^ 24) = channel i p.
Proof.
  intros Hi. unfold channel.
  assert (i = 0 \/ i = 1 \/ i = 2) as [-> | [-> | ->]] by lia.
  - change (256 ^ 0) with 1. change (2 ^ 24) with 16777216.
    Z.div_mod_to_equations. lia.
  - change (256 ^ 1) with 256. change (2 ^ 24) with 16777216.
    Z.div_mod_to_equations. lia.
  - change (256 ^ 2) with 65536. change (2 ^ 24) with 16777216.
    Z.div_mod_to_equations. lia.
Qed.

(** X9: the upper byte of the 32-bit pixel words never influences the
    classification: only the low 24 bits of each word count. *)
Theorem classification_ignores_upper_byte :
  forall thr p q,
    pixel_different thr p q = pixel_different thr (p mod 2 ^ 24) (q mod 2 ^ 24).
Proof.
  intros thr p q. rewrite !pixel_different_unfold. unfold channel_diff.
  rewrite !channel_low_bits by lia. reflexivity.
Qed.

(** X10: the classification does not depend on which capture is the current
    and which the previous one. *)
Theorem classification_is_symmetric :
  forall thr p q, pixel_different thr p q = pixel_different thr q p.
Proof.
  intros thr p q. rewrite !pixel_different_unfold.
  assert (forall i, channel_diff i p q = channel_diff i q p) as Hswap
    by (intros i; unfold channel_diff; lia).
  rewrite !Hswap. reflexivity.
Qed.

(** X11: a pixel compared with a pixel of the same colour is classified
    unchanged exactly when the threshold is positive (with a threshold of 0
    or less every pixel counts as changed). *)
Theorem same_colour_unchanged_iff_positive_threshold :
  forall thr p, pixel_different thr p p = false <-> 0 < thr.
Proof.
  intros thr p. split.
  - intros H. rewrite pixel_different_false in H. specialize (H 0 ltac:(lia)).
    unfold channel_diff in H. rewrite Z.sub_diag in H. exact H.
  - apply same_pixel_unchanged.
Qed.

(** ** More about the handlers as a whole *)

Section Session.

Variable cfg : config.
Variable arc_alpha : coverage_fn.

Lemma step_active e d :
  active d -> positive_size e ->
  exists d', step cfg arc_alpha e d = Some d' /\ active d'.
Proof.
  intros Hact Hsize. destruct e as [w h | | screen | x y]; cbn [step].
  - destruct Hsize as [Hw Hh].
    destruct (Z.eq_dec (width d) w) as [Ew | Ew];
      [destruct (Z.eq_dec (height d) h) as [Eh | Eh] |].
    + subst w h. rewrite redraw_same_size by exact Hact. exists d. tauto.
    + pose proof Hact as [_ (_ & _ & _ & _ & _ & _ & _ & Hci)].
      destruct (on_draw_fresh cfg w h d Hw Hh Hci ltac:(tauto)) as (d' & -> & Hact' & _).
      exists d'. tauto.
    + pose proof Hact as [_ (_ & _ & _ & _ & _ & _ & _ & Hci)].
      destruct (on_draw_fresh cfg w h d Hw Hh Hci ltac:(tauto)) as (d' & -> & Hact' & _).
      exists d'. tauto.
  - destruct (draw_timer_spec cfg d Hact) as (d' & -> & Hact' & _). exists d'. tauto.
  - eexists. split; [reflexivity |]. apply (capture_spec cfg screen d Hact).
  - eexists. split; [reflexivity |]. apply (poll_spec cfg arc_alpha x y d Hact).
Qed.

(** X15: once the session is active, no sequence of events with non-empty
    allocations makes an assertion fail, and the session stays active. *)
Theorem active_session_never_aborts :
  forall es d,
    active d -> Forall positive_size es ->
    exists d', run cfg arc_alpha es d = Some d' /\ active d'.
Proof.
  induction es as [| e es IH]; intros d Hact Hall.
  - exists d. split; [reflexivity | exact Hact].
  - apply Forall_cons in Hall. destruct Hall as [He Hes].
    destruct (step_active e d Hact He) as (d1 & Hstep & Hact1).
    destruct (IH d1 Hact1 Hes) as (d' & Hrun & Hact').
    exists d'. cbn [run]. rewrite Hstep. tauto.
Qed.

(** X7: in an active session whose ages are all below the maximum age, every
    deliverable event is handled and leaves all ages below the maximum age
    (so the unsigned char age never wraps). *)
Theorem ages_stay_below_max_age :
  forall e d,
    0 < cfg_max_age cfg ->
    active d -> ages_below (cfg_max_age cfg) d -> deliverable e d ->
    exists d', step cfg arc_alpha e d = Some d' /\
      active d' /\ ages_below (cfg_max_age cfg) d'.
Proof.
  intros e d. apply step_keeps_ages_below.
Qed.

Lemma rescale_in_range b w wd :
  0 <= b < wd -> 0 < w -> u32 (b * w) / wd < w.
Proof.
  intros Hb Hw.
  assert (0 <= b * w) as Hnn by (apply Z.mul_nonneg_nonneg; lia).
  assert (u32 (b * w) <= b * w) as Hle by (unfold u32; apply Z.mod_le; lia).
  assert (b * w < wd * w) as Hlt by (apply Z.mul_lt_mono_pos_r; lia).
  apply Z.div_lt_upper_bound; lia.
Qed.

(** X8: in an active session with an int width, every deliverable event
    (animation tick, resize, redraw, capture tick, pointer poll) is handled
    and leaves the bar position within [0, width), also when the product of
    the rescale wraps in 32 bits. *)
Theorem bar_stays_in_range :
  forall e d,
    active d -> bar_in_range d -> width d < 2 ^ 31 ->
    deliverable e d -> int_sized e ->
    exists d', step cfg arc_alpha e d = Some d' /\ bar_in_range d'.
Proof.
  intros e d Hact Hbar Hwd Hdel Hint.
  pose proof Hact as [Hinit (Hw0 & _ & _ & _ & _ & _ & _ & Hci)].
  unfold bar_in_range in *.
  destruct e as [w h | | screen | x y]; cbn [step].
  - destruct Hdel as [Hw Hh]. cbn in Hint.
    destruct (Z.eq_dec (width d) w) as [Ew | Ew];
      [destruct (Z.eq_dec (height d) h) as [Eh | Eh] |].
    + subst w h. rewrite redraw_same_size by exact Hact. exists d. tauto.
    + destruct (on_draw_fresh cfg w h d Hw Hh Hci ltac:(tauto))
        as (d' & -> & _ & Hw' & _ & _ & _ & _ & Hb & _).
      exists d'. split; [reflexivity |]. rewrite Hb, Hw', Hinit.
      assert (u32 w = w) as -> by (unfold u32; apply Z.mod_small; lia).
      assert (u32 (width d) = width d) as -> by (unfold u32; apply Z.mod_small; lia).
      split; [| apply rescale_in_range; lia].
      apply Z.div_pos; [| lia]. unfold u32. apply Z.mod_pos_bound. lia.
    + destruct (on_draw_fresh cfg w h d Hw Hh Hci ltac:(tauto))
        as (d' & -> & _ & Hw' & _ & _ & _ & _ & Hb & _).
      exists d'. split; [reflexivity |]. rewrite Hb, Hw', Hinit.
      assert (u32 w = w) as -> by (unfold u32; apply Z.mod_small; lia).
      assert (u32 (width d) = width d) as -> by (unfold u32; apply Z.mod_small; lia).
      split; [| apply rescale_in_range; lia].
      apply Z.div_pos; [| lia]. unfold u32. apply Z.mod_pos_bound. lia.
  - unfold on_draw_timer. replace (width d =? 0) with false by lia.
    assert (u32 (width d) = width d) as Hu by (unfold u32; apply Z.mod_small; lia).
    eexists. split; [reflexivity |]. cbn [fst bar_x width]. rewrite Hu.
    apply Z.mod_pos_bound. lia.
  - eexists. split; [reflexivity |].
    destruct (capture_spec cfg screen d Hact) as (_ & -> & _ & -> & _). exact Hbar.
  - eexists. split; [reflexivity |].
    destruct (poll_spec cfg arc_alpha x y d Hact) as (_ & -> & _ & -> & _). exact Hbar.
Qed.

(** X12: a pointer poll only clears: whatever the rasteriser's coverage, it
    sets no mask bit and raises no age, and it leaves the captures, the
    capture index and the bar position alone. *)
Theorem poll_only_clears :
  forall x y d,
    active d ->
    let d' := fst (on_mouse_poll_timer cfg arc_alpha x y d) in
    captures d' = captures d /\ capture_index d' = capture_index d /\
    bar_x d' = bar_x d /\
    (forall px py, in_bounds d px py ->
       (stale d' px py = true -> stale d px py = true) /\
       (0 <= age d px py -> 0 <= age d' px py <= age d px py)).
Proof.
  intros x y d Hact d'.
  destruct (poll_spec cfg arc_alpha x y d Hact) as (_ & _ & _ & Hb & Hpix).
  split; [| split; [| split; [exact Hb |]]].
  - subst d'. unfold on_mouse_poll_timer.
    destruct (negb (initialized d)); [reflexivity |].
    destruct ((pointer_x d =? x) && (pointer_y d =? y)); reflexivity.
  - subst d'. unfold on_mouse_poll_timer.
    destruct (negb (initialized d)); [reflexivity |].
    destruct ((pointer_x d =? x) && (pointer_y d =? y)); reflexivity.
  - intros px py Hin. destruct (Hpix px py Hin) as (Hs & _ & Ha & _). tauto.
Qed.

Lemma pointer_clear_render x y d :
  active d ->
  forall px py, in_bounds d px py ->
    render_alpha (pointer_clear cfg arc_alpha x y d) px py
    = clear8 (arc_alpha x y (cfg_radius cfg) px py) (render_alpha d px py).
Proof.
  intros [Hinit Hwf] px py [Hx Hy].
  pose proof Hwf as (Hw & Hh & Hmask & _).
  destruct (clear_a8_ok arc_alpha x y (cfg_radius cfg) (width d) (height d) _
              ltac:(lia) ltac:(lia) Hmask) as [_ Hal].
  unfold render_alpha, pointer_clear, clear_arc. cbn. apply Hal; assumption.
Qed.

(** X16: a pointer poll keeps the render-side copy of the mask in step with
    the mask bit at every pixel that lies inside the circle or strictly
    outside it, for a rasteriser that is exact away from the rim. *)
Theorem poll_keeps_sync_off_rim :
  forall x y d px py,
    exact_on_disc arc_alpha ->
    active d -> in_bounds d px py -> synced_at d px py ->
    inside_circle x y (cfg_radius cfg) px py = true \/
    outside_circle x y (cfg_radius cfg) px py = true ->
    synced_at (fst (on_mouse_poll_timer cfg arc_alpha x y d)) px py.
Proof.
  intros x y d px py Hexact Hact Hin Hsync Hoff.
  unfold on_mouse_poll_timer. pose proof Hact as [Hinit _]. rewrite Hinit. cbn [negb].
  destruct ((pointer_x d =? x) && (pointer_y d =? y)); cbn [fst]; [exact Hsync |].
  destruct (pointer_clear_spec cfg arc_alpha x y d Hact) as (_ & _ & _ & _ & _ & _ & Hpix).
  destruct (Hpix px py Hin) as [Hs _].
  unfold synced_at in *. rewrite (pointer_clear_render x y d Hact px py Hin), Hs.
  destruct (Hexact x y (cfg_radius cfg) px py) as [Hfull Hnone].
  destruct Hoff as [Hi | Ho].
  - rewrite clear8_full, clear1_full by (apply Hfull; exact Hi).
    rewrite andb_false_r. reflexivity.
  - rewrite clear8_none, clear1_none by (apply Hnone; exact Ho).
    rewrite andb_true_r. exact Hsync.
Qed.

End Session.

Section DrawMore.

Variable cfg : config.

(** X13: drawing again at the size of the last draw changes nothing. *)
Theorem redraw_changes_nothing :
  forall w h d d',
    on_draw cfg w h d = Some d' -> on_draw cfg w h d' = Some d'.
Proof.
  intros w h d d'. unfold on_draw at 1.
  destruct ((w =? 0) || (h =? 0)) eqn:Hz; [discriminate |].
  destruct (negb (initialized d) || negb (width d =? w) || negb (height d =? h)) eqn:Hnew.
  - intros [= <-]. unfold on_draw. rewrite Hz. cbn [initialized width height negb].
    rewrite !Z.eqb_refl. reflexivity.
  - intros [= <-]. unfold on_draw. rewrite Hz, Hnew. reflexivity.
Qed.

Lemma on_draw_fresh_render w h d d' :
  0 < w -> 0 < h ->
  initialized d = false \/ width d <> w \/ height d <> h ->
  on_draw cfg w h d = Some d' ->
  forall x y, render_alpha d' x y = 0.
Proof.
  intros Hw Hh Hnew. unfold on_draw.
  replace ((w =? 0) || (h =? 0)) with false
    by (symmetry; apply orb_false_iff; split; apply Z.eqb_neq; lia).
  replace (negb (initialized d) || negb (width d =? w) || negb (height d =? h)) with true.
  2: { symmetry. destruct Hnew as [-> | [Hn | Hn]]; [reflexivity | |];
       apply Z.eqb_neq in Hn; rewrite Hn; cbn; rewrite ?orb_true_r; reflexivity. }
  intros [= <-] x y. unfold render_alpha, a8_get. cbn. apply load_repeat_zero.
Qed.

Lemma on_draw_fresh_synced w h d d' :
  0 < w -> 0 < h ->
  capture_index d = 0 \/ capture_index d = 1 ->
  initialized d = false \/ width d <> w \/ height d <> h ->
  on_draw cfg w h d = Some d' -> mask_synced d'.
Proof.
  intros Hw Hh Hci Hnew Heq.
  destruct (on_draw_fresh cfg w h d Hw Hh Hci Hnew) as (d1 & Heq1 & _ & _ & _ & _ & _ & _ & _ & Hclean).
  pose proof (on_draw_fresh_render w h d d' Hw Hh Hnew Heq) as Hrend.
  rewrite Heq in Heq1. injection Heq1 as <-.
  intros x y _. unfold synced_at. destruct (Hclean x y) as [_ ->]. apply Hrend.
Qed.

Lemma on_draw_fresh_both_captures w h d d' :
  0 < w -> 0 < h ->
  initialized d = false \/ width d <> w \/ height d <> h ->
  on_draw cfg w h d = Some d' ->
  forall i x y, rgb_get (get_capture d' i) x y = 0.
Proof.
  intros Hw Hh Hnew. unfold on_draw.
  replace ((w =? 0) || (h =? 0)) with false
    by (symmetry; apply orb_false_iff; split; apply Z.eqb_neq; lia).
  replace (negb (initialized d) || negb (width d =? w) || negb (height d =? h)) with true.
  2: { symmetry. destruct Hnew as [-> | [Hn | Hn]]; [reflexivity | |];
       apply Z.eqb_neq in Hn; rewrite Hn; cbn; rewrite ?orb_true_r; reflexivity. }
  intros [= <-] i x y. unfold get_capture, rgb_get. cbn.
  destruct (i =? 0); cbn; apply load_repeat_zero.
Qed.

(** X14: the first draw sets up a well-formed session of the size asked for in
    which every age is 0, no pixel is masked, the render-side mask is
    transparent and both capture buffers are blank; it keeps the bar
    position, the pointer position and the capture index. *)
Theorem first_draw_starts_blank_session :
  forall w h d,
    initialized d = false -> 0 < w -> 0 < h ->
    capture_index d = 0 \/ capture_index d = 1 ->
    exists d', on_draw cfg w h d = Some d' /\
      active d' /\ width d' = w /\ height d' = h /\
      bar_x d' = bar_x d /\ pointer_x d' = pointer_x d /\ pointer_y d' = pointer_y d /\
      capture_index d' = capture_index d /\
      (forall x y, age d' x y = 0 /\ stale d' x y = false /\
                   render_alpha d' x y = 0 /\
                   rgb_get (fst (captures d')) x y = 0 /\
                   rgb_get (snd (captures d')) x y = 0 /\
                   rgb_get (get_capture d' (capture_index d')) x y = 0 /\
                   previous_pixel d' x y = 0) /\
      mask_synced d'.
Proof.
  intros w h d Hinit Hw Hh Hci.
  destruct (on_draw_fresh cfg w h d Hw Hh Hci ltac:(left; exact Hinit))
    as (d' & Heq & Hact & Hw' & Hh' & Hci' & Hpx & Hpy & Hb & Hclean).
  pose proof (on_draw_fresh_both_captures w h d d' Hw Hh ltac:(left; exact Hinit) Heq)
    as Hblank.
  pose proof (on_draw_fresh_render w h d d' Hw Hh ltac:(left; exact Hinit) Heq) as Hrend.
  rewrite Hinit in Hb.
  exists d'. split; [exact Heq |]. split; [exact Hact |].
  split; [exact Hw' |]. split; [exact Hh' |]. split; [exact Hb |].
  split; [exact Hpx |]. split; [exact Hpy |]. split; [exact Hci' |]. split.
  - intros x y. destruct (Hclean x y) as [Ha Hs].
    split; [exact Ha |]. split; [exact Hs |]. split; [apply Hrend |].
    split; [apply (Hblank 0) |]. split; [apply (Hblank 1) |].
    split; [apply Hblank |]. unfold previous_pixel. apply Hblank.
  - apply (on_draw_fresh_synced w h d d' Hw Hh Hci ltac:(left; exact Hinit) Heq).
Qed.

End DrawMore.

(** ** What the diff loop leaves alone *)

Section DiffFrame.

Variable cfg : config.
Variables (w h ms as_ cs ls : Z).
Variables (current last : list Z).
Variables (nm na : nat).

Hypothesis mask_row : (w + 7) / 8 <= ms.
Hypothesis ages_row : w <= as_.
Hypothesis current_stride : 0 <= cs.
Hypothesis last_stride : 0 <= ls.
Hypothesis mask_size : Z.of_nat nm = ms * h.
Hypothesis ages_size : Z.of_nat na = as_ * h.

Lemma diff_pixel_frame x y st :
  0 <= x < w -> 0 <= y < h -> diff_inv ms as_ cs ls nm na y st ->
  (forall i, 0 <= i -> i <> y * as_ + x ->
     load (ds_ages (diff_pixel cfg current last x st)) i = load (ds_ages st) i) /\
  (forall i b, 0 <= i -> 0 <= b < 8 -> i <> y * ms + x / 8 \/ b <> x mod 8 ->
     Z.testbit (load (ds_mask (diff_pixel cfg current last x st)) i) b
     = Z.testbit (load (ds_mask st) i) b).
Proof.
  intros Hx Hy (Hmo & Hao & Hco & Hlo & Hlm & Hla).
  pose proof (a1_index_bounds ms w h x y mask_row Hx Hy) as Hi.
  pose proof (a8_index_bounds as_ w h x y ages_row Hx Hy) as Hj.
  assert (0 <= x mod 8 < 8) as Hk by (apply Z.mod_pos_bound; lia).
  unfold diff_pixel. rewrite Hmo, Hao.
  rewrite (quot_nonneg x 8), (rem_nonneg x 8) by lia.
  destruct (negb (Z.land (load (ds_mask st) (y * ms + x / 8)) (Z.shiftl 1 (x mod 8)) =? 0));
    [split; reflexivity |].
  destruct (pixel_different (cfg_threshold cfg) _ _); cbn [negb];
    [| destruct (_ >=? cfg_max_age cfg)]; cbn [ds_ages ds_mask].
  - split; [| reflexivity]. intros i Hi0 Hne. apply load_store_ne; lia.
  - split.
    + intros i Hi0 Hne. apply load_store_ne; lia.
    + intros i b Hi0 Hb Hne.
      destruct (Z.eq_dec i (y * ms + x / 8)) as [-> | Hni].
      * rewrite load_store_eq by lia. rewrite testbit_set by lia.
        replace (x mod 8 =? b) with false by lia. apply orb_false_r.
      * rewrite load_store_ne by lia. reflexivity.
  - split; [| reflexivity]. intros i Hi0 Hne. apply load_store_ne; lia.
Qed.

Lemma diff_loop_frame m0 a0 :
  0 < w -> 0 < h -> length m0 = nm -> length a0 = na ->
  let st := for_range 0 h (diff_row cfg w ms as_ cs ls current last)
              (mk_diff m0 a0 false 0 0 0 0) in
  (forall i, 0 <= i ->
     (forall x y, 0 <= x < w -> 0 <= y < h -> i <> y * as_ + x) ->
     load (ds_ages st) i = load a0 i) /\
  (forall i b, 0 <= i -> 0 <= b < 8 ->
     (forall x y, 0 <= x < w -> 0 <= y < h -> i <> y * ms + x / 8 \/ b <> x mod 8) ->
     Z.testbit (load (ds_mask st) i) b = Z.testbit (load m0 i) b).
Proof.
  intros Hw Hh Hm Ha st. split.
  - intros i Hi0 Hfree.
    destruct (pixel_loop w h (fun t (_ _ : Z) => load (ds_ages t) i) (fun _ _ v => v)
                (diff_inv ms as_ cs ls nm na)
                (fun _ x => diff_pixel cfg current last x)
                (fun _ t => mk_diff (ds_mask t) (ds_ages t) (ds_changed t)
                              (ds_mask_off t + ms) (ds_ages_off t + as_)
                              (ds_current_off t + cs) (ds_last_off t + ls)))
      with (s0 := mk_diff m0 a0 false 0 0 0 0) as [_ Hview].
    + intros x y t Hx Hy Ht.
      destruct (diff_pixel_ok cfg w h ms as_ cs ls current last nm na
                  mask_row ages_row current_stride last_stride mask_size ages_size
                  x y t Hx Hy Ht) as (Hinv' & _).
      destruct (diff_pixel_frame x y t Hx Hy Ht) as [Hages _].
      split; [exact Hinv' |]. split.
      * apply Hages; [exact Hi0 | apply Hfree; assumption].
      * intros x' y' _ _ _. apply Hages; [exact Hi0 | apply Hfree; assumption].
    + intros y t Hy (Hmo & Hao & Hco & Hlo & Hlm & Hla).
      split; [| reflexivity].
      unfold diff_inv. cbn. rewrite Hmo, Hao, Hco, Hlo. repeat split; try lia.
    + lia.
    + lia.
    + unfold diff_inv. cbn. repeat split; try lia.
    + apply (Hview 0 0); lia.
  - intros i b Hi0 Hb Hfree.
    destruct (pixel_loop w h (fun t (_ _ : Z) => Z.testbit (load (ds_mask t) i) b)
                (fun _ _ v => v)
                (diff_inv ms as_ cs ls nm na)
                (fun _ x => diff_pixel cfg current last x)
                (fun _ t => mk_diff (ds_mask t) (ds_ages t) (ds_changed t)
                              (ds_mask_off t + ms) (ds_ages_off t + as_)
                              (ds_current_off t + cs) (ds_last_off t + ls)))
      with (s0 := mk_diff m0 a0 false 0 0 0 0) as [_ Hview].
    + intros x y t Hx Hy Ht.
      destruct (diff_pixel_ok cfg w h ms as_ cs ls current last nm na
                  mask_row ages_row current_stride last_stride mask_size ages_size
                  x y t Hx Hy Ht) as (Hinv' & _).
      destruct (diff_pixel_frame x y t Hx Hy Ht) as [_ Hbits].
      split; [exact Hinv' |]. split.
      * apply Hbits; [exact Hi0 | exact Hb | apply Hfree; assumption].
      * intros x' y' _ _ _. apply Hbits; [exact Hi0 | exact Hb | apply Hfree; assumption].
    + intros y t Hy (Hmo & Hao & Hco & Hlo & Hlm & Hla).
      split; [| reflexivity].
      unfold diff_inv. cbn. rewrite Hmo, Hao, Hco, Hlo. repeat split; try lia.
    + lia.
    + lia.
    + unfold diff_inv. cbn. repeat split; try lia.
    + apply (Hview 0 0); lia.
Qed.

End DiffFrame.

Section CaptureFrame.

Variable cfg : config.

(** X17: a capture tick that masks a pixel uploads the whole mask: afterwards
    the render-side copy agrees with the mask bits at every pixel. *)
Theorem promotion_uploads_whole_mask :
  forall screen d x y,
    active d -> in_bounds d x y ->
    let d' := fst (on_screen_capture_timer cfg screen d) in
    stale d x y = false -> stale d' x y = true ->
    mask_synced d'.
Proof.
  intros screen d x y Hact Hin d' H0 H1.
  destruct (capture_spec cfg screen d Hact) as (_ & Hw & Hh & _).
  destruct (capture_upload cfg screen d Hact) as [[_ Hmi] | [_ Hup]].
  - fold d' in Hmi. unfold stale in H0, H1. rewrite Hmi, H0 in H1. discriminate.
  - intros px py Hp. apply Hup.
    unfold in_bounds in *. fold d' in Hw, Hh. rewrite <- Hw, <- Hh. exact Hp.
Qed.

(** X18: a capture tick writes only the cells of pixels: the strides and sizes
    of the age map and of the A1 mask are kept, every age byte that is not
    the byte of a pixel (row padding) keeps its value, and every mask bit
    that is not the bit of a pixel keeps its value. *)
Theorem capture_writes_only_pixel_cells :
  forall screen d,
    active d ->
    let d' := fst (on_screen_capture_timer cfg screen d) in
    img_stride (pixel_ages d') = img_stride (pixel_ages d) /\
    img_stride (mask_image d') = img_stride (mask_image d) /\
    length (img_data (pixel_ages d')) = length (img_data (pixel_ages d)) /\
    length (img_data (mask_image d')) = length (img_data (mask_image d)) /\
    (forall i, 0 <= i ->
       (forall x y, in_bounds d x y ->
          i <> cell_index FORMAT_A8 (img_stride (pixel_ages d)) x y) ->
       load (img_data (pixel_ages d')) i = load (img_data (pixel_ages d)) i) /\
    (forall i b, 0 <= i -> 0 <= b < 8 ->
       (forall x y, in_bounds d x y ->
          i <> cell_index FORMAT_A1 (img_stride (mask_image d)) x y \/ b <> x mod 8) ->
       Z.testbit (load (img_data (mask_image d')) i) b
       = Z.testbit (load (img_data (mask_image d)) i) b).
Proof.
  intros screen d [Hinit Hwf] d'.
  pose proof Hwf as (Hw & Hh & Hmask & Hmi & Hpa & Hc0 & Hc1 & Hci).
  pose proof (get_capture_wf d (capture_index d) Hwf) as Hcur.
  pose proof (get_capture_wf d (1 - capture_index d) Hwf) as Hlast.
  destruct (paint_window_ok screen (width d) (height d) _ ltac:(lia) ltac:(lia) Hcur)
    as (Hpw & Hps & Hpv).
  destruct (wf_image_a1 _ _ _ Hmi) as (Hmrow & Hmlen).
  destruct (wf_image_a8 _ _ _ Hpa) as (Harow & Halen).
  destruct (wf_image_rgb _ _ _ Hcur) as (Hcrow & _ & _).
  destruct (wf_image_rgb _ _ _ Hlast) as (Hlrow & _ & _).
  destruct (diff_loop_frame cfg (width d) (height d)
              (img_stride (mask_image d)) (img_stride (pixel_ages d))
              (img_stride (paint_window screen (get_capture d (capture_index d))))
              (img_stride (get_capture d (1 - capture_index d)))
              (img_data (paint_window screen (get_capture d (capture_index d))))
              (img_data (get_capture d (1 - capture_index d)))
              (length (img_data (mask_image d))) (length (img_data (pixel_ages d)))
              Hmrow Harow
              ltac:(rewrite Hps; Z.div_mod_to_equations; lia)
              ltac:(Z.div_mod_to_equations; lia)
              Hmlen Halen
              (img_data (mask_image d)) (img_data (pixel_ages d))
              Hw Hh eq_refl eq_refl)
    as (Hages & Hbits).
  destruct (diff_loop_ok cfg (width d) (height d)
              (img_stride (mask_image d)) (img_stride (pixel_ages d))
              (img_stride (paint_window screen (get_capture d (capture_index d))))
              (img_stride (get_capture d (1 - capture_index d)))
              (img_data (paint_window screen (get_capture d (capture_index d))))
              (img_data (get_capture d (1 - capture_index d)))
              (length (img_data (mask_image d))) (length (img_data (pixel_ages d)))
              Hmrow Harow
              ltac:(rewrite Hps; Z.div_mod_to_equations; lia)
              ltac:(Z.div_mod_to_equations; lia)
              Hmlen Halen
              (img_data (mask_image d)) (img_data (pixel_ages d))
              ltac:(lia) ltac:(lia) eq_refl eq_refl)
    as (Hlm & Hla & _).
  subst d'. unfold on_screen_capture_timer. rewrite Hinit. cbn [negb fst].
  match goal with
  | |- context [for_range 0 (height d) ?row ?st0] =>
      set (st := for_range 0 (height d) row st0) in *
  end.
  cbn [pixel_ages mask_image with_data img_stride img_data].
  split; [reflexivity |]. split; [reflexivity |].
  split; [exact Hla |]. split; [exact Hlm |]. split.
  - intros i Hi0 Hfree. apply Hages; [exact Hi0 |].
    intros x y Hx Hy. apply (Hfree x y). split; assumption.
  - intros i b Hi0 Hb Hfree. apply Hbits; [exact Hi0 | exact Hb |].
    intros x y Hx Hy. apply (Hfree x y). split; assumption.
Qed.

End CaptureFrame.

(** ** The further theorems at concrete inputs *)

Lemma demo_session_synced : mask_synced demo_session.
Proof.
  apply (on_draw_fresh_synced default_config 4 2 initial_data); try lia.
  - left; reflexivity.
  - left; reflexivity.
  - reflexivity.
Qed.

Lemma demo_session_ages : ages_below (cfg_max_age default_config) demo_session.
Proof.
  intros x y _.
  destruct (start_session_spec default_config 4 2 ltac:(lia) ltac:(lia))
    as (_ & _ & _ & _ & Hclean).
  destruct (Hclean x y) as [Ha _]. fold demo_session in Ha. rewrite Ha.
  vm_compute. split; [discriminate | reflexivity].
Qed.

Lemma capture_tick_is_pixelwise_witness :
  (stale (fst (on_screen_capture_timer default_config (solid white) demo_session)) 1 1,
   age (fst (on_screen_capture_timer default_config (solid white) demo_session)) 1 1)
  = pixel_step default_config (stale demo_session 1 1) (age demo_session 1 1)
      (u32 (solid white 1 1)) (previous_pixel demo_session 1 1).
Proof.
  apply (capture_tick_is_pixelwise default_config (solid white) demo_session 1 1); evaluate.
Defined.

Lemma capture_swaps_buffers_witness :
  let d' := fst (on_screen_capture_timer default_config (solid white) demo_session) in
  capture_index d' = 1 - capture_index demo_session /\
  get_capture d' (capture_index d') = get_capture demo_session (capture_index d') /\
  (forall x y, in_bounds demo_session x y ->
     rgb_get (get_capture d' (capture_index demo_session)) x y = u32 (solid white x y)) /\
  capture_index (fst (on_screen_capture_timer default_config (solid white) d'))
  = capture_index demo_session.
Proof.
  apply (capture_swaps_buffers default_config (solid white) demo_session). evaluate.
Defined.

Lemma capture_uploads_only_on_promotion_witness :
  let d' := fst (on_screen_capture_timer default_config (solid 0) demo_session) in
  mask d' = mask demo_session /\ mask_image d' = mask_image demo_session.
Proof.
  apply (capture_uploads_only_on_promotion default_config (solid 0) demo_session).
  - evaluate.
  - intros x y Hin _.
    assert (active demo_session) as Hact by evaluate.
    destruct (capture_spec default_config (solid 0) demo_session Hact)
      as (_ & _ & _ & _ & _ & _ & Hpix & _).
    destruct (start_session_spec default_config 4 2 ltac:(lia) ltac:(lia))
      as (_ & _ & _ & _ & Hclean).
    destruct (Hclean x y) as (Ha & Hs & Hp). fold demo_session in Ha, Hs, Hp.
    specialize (Hpix x y Hin). rewrite Ha, Hs, Hp in Hpix.
    apply pair_equal_spec in Hpix. apply Hpix.
Defined.

Lemma capture_keeps_mask_synced_witness :
  mask_synced (fst (on_screen_capture_timer default_config (solid white) demo_session)).
Proof.
  apply (capture_keeps_mask_synced default_config (solid white) demo_session).
  - evaluate.
  - exact demo_session_synced.
Defined.

Lemma promotion_needs_unchanged_witness :
  let d' := fst (on_screen_capture_timer scenario_config (solid 0) aged_session) in
  pixel_different (cfg_threshold scenario_config) (u32 (solid 0 0 0))
    (previous_pixel aged_session 0 0) = false /\
  cfg_max_age scenario_config <= u8 (age aged_session 0 0 + 1) /\
  age d' 0 0 = 0.
Proof.
  apply (promotion_needs_unchanged scenario_config (solid 0) aged_session 0 0); evaluate.
Defined.

Lemma steady_pixel_is_promoted_on_time_witness :
  let screens := [solid 0; solid 0; solid 0] in
  let d := start_session scenario_config 4 2 in
  let n := Z.of_nat (length screens) in
  let d' := feed scenario_config screens d in
  (age d 0 0 + n < cfg_max_age scenario_config ->
     stale d' 0 0 = false /\ age d' 0 0 = age d 0 0 + n) /\
  (0 < n -> age d 0 0 + n = cfg_max_age scenario_config ->
     stale d' 0 0 = true /\ age d' 0 0 = 0).
Proof.
  intros screens d.
  apply (steady_pixel_is_promoted_on_time scenario_config screens d 0 0 0).
  - evaluate.
  - evaluate.
  - reflexivity.
  - reflexivity.
  - evaluate.
  - evaluate.
  - intros s [<- | [<- | [<- | []]]]; reflexivity.
  - reflexivity.
Defined.

Lemma ages_stay_below_max_age_witness :
  exists d', step default_config ideal_alpha (ScreenCapture (solid 0)) demo_session = Some d' /\
    active d' /\ ages_below (cfg_max_age default_config) d'.
Proof.
  apply (ages_stay_below_max_age default_config ideal_alpha (ScreenCapture (solid 0))
           demo_session).
  - reflexivity.
  - evaluate.
  - exact demo_session_ages.
  - exact I.
Defined.

Lemma bar_stays_in_range_witness :
  exists d', step default_config ideal_alpha (Draw 128 72) wide_session = Some d' /\
    bar_in_range d'.
Proof.
  apply (bar_stays_in_range default_config ideal_alpha (Draw 128 72) wide_session);
    evaluate.
Defined.

Lemma poll_only_clears_witness :
  let d' := fst (on_mouse_poll_timer default_config ideal_alpha 1 1 masked_session) in
  captures d' = captures masked_session /\
  capture_index d' = capture_index masked_session /\
  bar_x d' = bar_x masked_session /\
  (forall px py, in_bounds masked_session px py ->
     (stale d' px py = true -> stale masked_session px py = true) /\
     (0 <= age masked_session px py -> 0 <= age d' px py <= age masked_session px py)).
Proof.
  apply (poll_only_clears default_config ideal_alpha 1 1 masked_session). evaluate.
Defined.

Lemma redraw_changes_nothing_witness :
  on_draw default_config 4 2 demo_session = Some demo_session.
Proof.
  apply (redraw_changes_nothing default_config 4 2 initial_data demo_session).
  reflexivity.
Defined.

Lemma first_draw_starts_blank_session_witness :
  exists d', on_draw default_config 4 2 initial_data = Some d' /\
    active d' /\ width d' = 4 /\ height d' = 2 /\
    bar_x d' = bar_x initial_data /\
    pointer_x d' = pointer_x initial_data /\ pointer_y d' = pointer_y initial_data /\
    capture_index d' = capture_index initial_data /\
    (forall x y, age d' x y = 0 /\ stale d' x y = false /\
                 render_alpha d' x y = 0 /\
                 rgb_get (fst (captures d')) x y = 0 /\
                 rgb_get (snd (captures d')) x y = 0 /\
                 rgb_get (get_capture d' (capture_index d')) x y = 0 /\
                 previous_pixel d' x y = 0) /\
    mask_synced d'.
Proof.
  apply (first_draw_starts_blank_session default_config 4 2 initial_data); evaluate.
Defined.

Lemma active_session_never_aborts_witness :
  exists d',
    run default_config ideal_alpha
      [ScreenCapture (solid white); DrawTimer; MousePoll 1 1; Draw 5 3; DrawTimer]
      demo_session = Some d' /\ active d'.
Proof.
  apply (active_session_never_aborts default_config ideal_alpha).
  - evaluate.
  - repeat constructor.
Defined.

Lemma poll_keeps_sync_off_rim_witness :
  synced_at (fst (on_mouse_poll_timer default_config ideal_alpha 1 1 masked_session)) 3 1.
Proof.
  apply (poll_keeps_sync_off_rim default_config ideal_alpha 1 1 masked_session 3 1).
  - exact ideal_alpha_exact.
  - evaluate.
  - evaluate.
  - evaluate.
  - left. reflexivity.
Defined.

Lemma promotion_uploads_whole_mask_witness :
  mask_synced (fst (on_screen_capture_timer scenario_config (solid 0) aged_session)).
Proof.
  apply (promotion_uploads_whole_mask scenario_config (solid 0) aged_session 0 0);
    evaluate.
Defined.

Lemma capture_writes_only_pixel_cells_witness :
  let d' := fst (on_screen_capture_timer default_config (solid white) demo_session) in
  img_stride (pixel_ages d') = img_stride (pixel_ages demo_session) /\
  img_stride (mask_image d') = img_stride (mask_image demo_session) /\
  length (img_data (pixel_ages d')) = length (img_data (pixel_ages demo_session)) /\
  length (img_data (mask_image d')) = length (img_data (mask_image demo_session)) /\
  (forall i, 0 <= i ->
     (forall x y, in_bounds demo_session x y ->
        i <> cell_index FORMAT_A8 (img_stride (pixel_ages demo_session)) x y) ->
     load (img_data (pixel_ages d')) i = load (img_data (pixel_ages demo_session)) i) /\
  (forall i b, 0 <= i -> 0 <= b < 8 ->
     (forall x y, in_bounds demo_session x y ->
        i <> cell_index FORMAT_A1 (img_stride (mask_image demo_session)) x y \/ b <> x mod 8) ->
     Z.testbit (load (img_data (mask_image d')) i) b
     = Z.testbit (load (img_data (mask_image demo_session)) i) b).
Proof.
  apply (capture_writes_only_pixel_cells default_config (solid white) demo_session).
  evaluate.
Defined.
